(** * The dask_cudf preprocessing notebooks

    The repository is two notebooks that sequence calls into dask,
    dask_cudf, cudf and numpy.  The cells verified here are, in
    [dask_cudf_example.ipynb]:

    - "Step #2 - Fill NA/NaN"   ([Step2_fillna]),
    - "Step #3 - Normalize"     ([Step3_normalize]),
    - [_assign_rand] and the [set_index] shuffle,
    - the cell that cleans and writes the shuffled dataset
      ([write_shuffled]) and the one that reads it back,

    and the cell of the first notebook that cleans the working
    directories ([clean_directories]).

    Conventions of the embedding.

    - A column value is [option R]: [None] is a missing value (null or
      NaN), [Some x] a number.  Floating-point operations are modelled by
      the real operations they round, so a cast between numeric dtypes
      changes the dtype tag of a column and not its values.
    - A [dask_cudf] column is a list of per-partition chunks together with
      the dtype dask tracks for it (its meta); a dataframe maps column
      names to such columns.  For the shuffle, where rows are moved as a
      whole, a dataframe is its list of partitions, each a list of rows.
    - The library reductions are given their documented meaning:
      [mean] and [std] skip missing values, [std] has [ddof = 1], both are
      combined from per-partition count, sum and sum of squares.
    - [quantile(0.5)] is an estimate that dask merges from percentiles of
      the partitions; it is not the median of the column in general, and
      how it is merged depends on the version of dask.  The cells that use
      it are verified for every estimate ([estimate] below); the merge of
      dask 2 is modelled as one such estimate ([dask_quantile]).
    - A row of a dataframe that is shuffled is the tuple of its column
      values.  The index the dataframe had before ([timestamp]) is not part
      of it: [set_index] replaces it by [sort_ind], which is in turn left
      out when the dataframe is written.
    - numpy's global generator is an explicit [RandomState] threaded through
      the cells that draw from it; a lazy dask collection that draws is a
      function of that state.
    - A Python exception is a [Raise] in the [result] monad. *)

From Stdlib Require Import Reals Lra Lia.
From stdpp Require Import gmap strings list sorting.

(** ** Exceptions *)

Inductive exn :=
  | KeyError (name : string)
  | IndexError
  | ValueError
  | FileExistsError (path : string)
  | FileNotFoundError (path : string)
  | OSError (path : string).

Inductive result (A : Type) :=
  | Ok (a : A)
  | Raise (e : exn).
Arguments Ok {A} a.
Arguments Raise {A} e.

#[global] Instance result_ret : MRet result := fun A a => Ok a.
#[global] Instance result_bind : MBind result := fun A B f m =>
  match m with
  | Ok a => f a
  | Raise e => Raise e
  end.

(** [for x in l: s = body(s, x)] *)
Fixpoint for_each {A St : Type} (body : St -> A -> result St) (l : list A) (s : St)
  : result St :=
  match l with
  | [] => Ok s
  | x :: l' => s' ← body s x; for_each body l' s'
  end.

(** [for i, x in enumerate(l): s = body(s, i, x)], counting from [i]. *)
Fixpoint for_enumerate {A St : Type} (body : St -> nat -> A -> result St)
    (i : nat) (l : list A) (s : St) : result St :=
  match l with
  | [] => Ok s
  | x :: l' => s' ← body s i x; for_enumerate body (S i) l' s'
  end.

(** ** Columns and dataframes *)

Inductive dtype := int32 | int64 | float32 | float64.

#[global] Instance dtype_eq_dec : EqDecision dtype.
Proof. solve_decision. Defined.

Definition is_float (d : dtype) : bool :=
  match d with
  | float32 | float64 => true
  | int32 | int64 => false
  end.

(** A scalar that a reduction returns; [None] is NaN. *)
Definition scalar := option R.

(** One partition of one column (a [cudf.Series]). *)
Record Series := mkSeries {
  dtype_of : dtype;
  values : list (option R)
}.

(** A column of a dask dataframe (a [dask_cudf.Series]). *)
Record DaskSeries := mkDaskSeries {
  meta : dtype;
  chunks : list Series
}.

(** A [dask_cudf.DataFrame], by column. *)
Abbreviation DaskDataFrame := (gmap string DaskSeries).

#[global] Instance Rle_decision (x y : R) : Decision (x <= y)%R := Rle_dec x y.
#[global] Instance Rlt_decision (x y : R) : Decision (x < y)%R := Rlt_dec x y.
#[global] Instance Req_decision : EqDecision R := Req_dec_T.

(** [ddf[name]] *)
Definition getitem (ddf : DaskDataFrame) (name : string) : result DaskSeries :=
  match ddf !! name with
  | Some col => Ok col
  | None => Raise (KeyError name)
  end.

(** [ddf[names]], the selected columns in the order of [names]. *)
Fixpoint getitem_list (ddf : DaskDataFrame) (names : list string)
  : result (list DaskSeries) :=
  match names with
  | [] => Ok []
  | name :: names' =>
      col ← getitem ddf name;
      cols ← getitem_list ddf names';
      mret (col :: cols)
  end.

(** [l[i]] on a positional result such as [means]. *)
Definition index {A : Type} (l : list A) (i : nat) : result A :=
  match l !! i with
  | Some x => Ok x
  | None => Raise IndexError
  end.

(** *** Element-wise arithmetic with a scalar *)

Definition sub_cell (x m : option R) : option R :=
  match x, m with
  | Some a, Some b => Some (a - b)%R
  | _, _ => None
  end.

Definition add_cell (x m : option R) : option R :=
  match x, m with
  | Some a, Some b => Some (a + b)%R
  | _, _ => None
  end.

(** A zero divisor gives an infinity or NaN, which is not a number. *)
Definition div_cell (x d : option R) : option R :=
  match x, d with
  | Some a, Some b => if decide (b = 0%R) then None else Some (a / b)%R
  | _, _ => None
  end.

Definition series_map (d : dtype) (f : option R -> option R) (s : Series) : Series :=
  {| dtype_of := d; values := f <$> values s |}.

(** An element-wise operation runs on every partition. *)
Definition dask_map (d : dtype) (f : option R -> option R) (s : DaskSeries)
  : DaskSeries :=
  {| meta := d; chunks := series_map d f <$> chunks s |}.

(** [s - m]; the result of arithmetic with a float scalar is float64. *)
Definition sub_scalar (s : DaskSeries) (m : scalar) : DaskSeries :=
  dask_map float64 (fun x => sub_cell x m) s.

(** [s / d] *)
Definition div_scalar (s : DaskSeries) (d : scalar) : DaskSeries :=
  dask_map float64 (fun x => div_cell x d) s.

(** [s.astype(d)] *)
Definition astype (s : DaskSeries) (d : dtype) : DaskSeries :=
  dask_map d (fun x => x) s.

(** [s.fillna(v)]: a missing value becomes [v], the dtype is kept. *)
Definition fill_cell (v : scalar) (x : option R) : option R :=
  match x with
  | Some a => Some a
  | None => v
  end.

Definition fillna (s : DaskSeries) (v : scalar) : DaskSeries :=
  {| meta := meta s;
     chunks := (fun c => series_map (dtype_of c) (fill_cell v) c) <$> chunks s |}.

(** *** Reductions *)

(** Count, sum and sum of squares of the values that are present. *)
Record moments := mkMoments {
  count : nat;
  total : R;
  total_sq : R
}.

Definition moments_zero : moments := mkMoments 0 0 0.

Definition combine (a b : moments) : moments :=
  mkMoments (count a + count b) (total a + total b) (total_sq a + total_sq b).

Definition moments_of_cell (x : option R) : moments :=
  match x with
  | Some a => mkMoments 1 a (a * a)
  | None => moments_zero
  end.

(** The per-partition pass. *)
Definition chunk_moments (xs : list (option R)) : moments :=
  foldr (fun x acc => combine (moments_of_cell x) acc) moments_zero xs.

(** The tree reduction over the partitions. *)
Definition reduce_moments (s : DaskSeries) : moments :=
  foldr combine moments_zero ((fun c => chunk_moments (values c)) <$> chunks s).

Definition mean_agg (m : moments) : scalar :=
  if decide (count m = 0) then None else Some (total m / INR (count m))%R.

Definition var_aggs (ddof : nat) (m : moments) : scalar :=
  if decide (count m <= ddof) then None
  else
    Some ((total_sq m / INR (count m)
           - (total m / INR (count m)) * (total m / INR (count m)))
          * INR (count m) / INR (count m - ddof))%R.

(** [s.mean().compute()] *)
Definition mean (s : DaskSeries) : scalar := mean_agg (reduce_moments s).

(** [s.var().compute()], with the default [ddof = 1]. *)
Definition var (s : DaskSeries) : scalar := var_aggs 1 (reduce_moments s).

(** [s.std().compute()] *)
Definition std (s : DaskSeries) : scalar := sqrt <$> var s.

(** The values of a column that are present, over all partitions. *)
Definition present (s : DaskSeries) : list R :=
  omap (fun x => x) (concat (values <$> chunks s)).

Definition Rsort (l : list R) : list R := merge_sort Rle l.

(** The median of some numbers: the middle of the sorted values, the mean
    of the two middle ones when their number is even.  This is numpy's
    [percentile(a, 50)] with linear interpolation. *)
Definition median (a : list R) : scalar :=
  let sorted := Rsort a in
  let n := length sorted in
  if decide (n = 0) then None
  else if Nat.even n then
    add_cell (sorted !! (n / 2 - 1)) (sorted !! (n / 2)) ≫= fun t => Some (t / 2)%R
  else sorted !! (n / 2).

(** The median of the values of a column, over all its partitions: the
    fill value that the specification names. *)
Definition quantile_half (s : DaskSeries) : scalar := median (present s).

(** Python's [int(x)] on a float: truncation toward zero. *)
Definition int_of_float (x : R) : Z :=
  if decide (0 <= x)%R then Int_part x else (- Int_part (- x))%Z.

(** *** [Series.quantile(0.5)] as dask 2 computes it

    [dask.dataframe.core.quantile] drops the missing values, takes the
    50th percentile of every partition ([_percentile]) and merges these
    with [merge_percentiles], each weighted by the number of values it
    stands for. *)

(** [_percentile(a, [50])] on the values of one partition: the percentile
    and the number of values; there is no percentile without a value. *)
Definition _percentile (c : Series) : scalar * nat :=
  let a := omap (fun x => x) (values c) in (median a, length a).

(** The order of Python's tuples [(val, count)]. *)
Definition val_count_le (a b : R * nat) : Prop :=
  (a.1 < b.1)%R \/ (a.1 = b.1 /\ a.2 <= b.2).

#[global] Instance val_count_le_dec (a b : R * nat) : Decision (val_count_le a b).
Proof. unfold val_count_le. apply _. Defined.

(** [np.cumsum], on top of [acc]. *)
Fixpoint cumsum (acc : nat) (l : list nat) : list nat :=
  match l with
  | [] => []
  | x :: l' => (acc + x) :: cumsum (acc + x) l'
  end.

(** [divisions.searchsorted(s, side="left")] on sorted divisions. *)
Fixpoint searchsorted_left (divisions : list nat) (s : nat) : nat :=
  match divisions with
  | [] => 0
  | d :: divisions' =>
      if decide (d < s) then S (searchsorted_left divisions' s) else 0
  end.

(** [divisions.searchsorted(s, side="right")] on sorted divisions. *)
Fixpoint searchsorted_right (divisions : list nat) (s : nat) : nat :=
  match divisions with
  | [] => 0
  | d :: divisions' =>
      if decide (d ≤ s) then S (searchsorted_right divisions' s) else 0
  end.

(** [a[i]] on an array: a negative index counts from the end. *)
Definition array_getitem {A : Type} (a : list A) (i : Z) : result A :=
  let j := if decide (i < 0)%Z then (Z.of_nat (length a) + i)%Z else i in
  if decide (0 <= j)%Z then index a (Z.to_nat j) else Raise IndexError.

(** [merge_percentiles([50], [[50]] * npartitions, vals)] with its default
    interpolation ["lower"].  A partition without values is left out;
    [count] is the number of observations up to the percentile, in
    hundredths. *)
Definition merge_percentiles (vals : list (scalar * nat)) : result R :=
  let L := omap (fun vn : scalar * nat =>
                   if decide (vn.2 = 0) then None
                   else (fun v => (v, vn.2)) <$> vn.1) vals in
  match L with
  | [] => Raise ValueError
  | _ :: _ =>
      let counts := (fun vn : R * nat => (vn.1, 50 * vn.2)) <$> L in
      let combined := merge_sort val_count_le counts in
      let combined_q := cumsum 0 (snd <$> combined) in
      let desired_q := 50 * sum_list (snd <$> L) in
      let left := Z.min (Z.of_nat (searchsorted_left combined_q desired_q))
                        (Z.of_nat (length combined) - 1) in
      let right := (Z.of_nat (searchsorted_right combined_q desired_q) - 1)%Z in
      let lower := Z.min left right in
      array_getitem (fst <$> combined) lower
  end.

(** [s.quantile(0.5).compute()] in dask 2. *)
Definition dask_quantile (s : DaskSeries) : result R :=
  merge_percentiles (_percentile <$> chunks s).

(** The number that [dask_quantile] returns. *)
Definition dask_estimate (s : DaskSeries) : R :=
  match dask_quantile s with
  | Ok v => v
  | Raise _ => 0%R
  end.

(** ** The cells of [dask_cudf_example.ipynb] *)

(** *** Step #2 - Fill NA/NaN *)

Section FillNA.

(** What [quantile(0.5)] estimates for a column that holds a value.  The
    cell is verified for every estimate. *)
Variable estimate : DaskSeries -> R.

(** [s.quantile(0.5).compute()]: the merge finds nothing to merge in a
    column without a value and raises; otherwise it returns its estimate. *)
Definition quantile (s : DaskSeries) : result R :=
  match present s with
  | [] => Raise ValueError
  | _ :: _ => Ok (estimate s)
  end.

(** The fill value of one column: [median], and for an [int64] or [int32]
    column [int(median)]. *)
Definition fill_value (col : DaskSeries) : result scalar :=
  median ← quantile col;
  if bool_decide (meta col = int64) || bool_decide (meta col = int32) then
    mret (Some (IZR (int_of_float median)))
  else mret (Some median).

Definition fillna_body (gddf_read : DaskDataFrame) (col : string)
  : result DaskDataFrame :=
  s ← getitem gddf_read col;
  median ← fill_value s;
  s' ← getitem gddf_read col;
  mret (<[col := fillna s' median]> gddf_read).

Definition Step2_fillna (cont_names : list string) (gddf_read : DaskDataFrame)
  : result DaskDataFrame :=
  for_each fillna_body cont_names gddf_read.

End FillNA.

(** *** Step #3 - Normalize *)

Definition eps : R := 1e-7.

Definition normalize_body (means stds : list scalar)
    (gddf_read : DaskDataFrame) (i : nat) (name : string) : result DaskDataFrame :=
  col ← getitem gddf_read name;
  m ← index means i;
  s ← index stds i;
  let gddf_read1 :=
    <[name := div_scalar (sub_scalar col m) (add_cell (Some eps) s)]> gddf_read in
  col1 ← getitem gddf_read1 name;
  mret (<[name := astype col1 float32]> gddf_read1).

Definition Step3_normalize (cont_names : list string) (gddf_read : DaskDataFrame)
  : result DaskDataFrame :=
  gdf_cont ← getitem_list gddf_read cont_names;
  let means := mean <$> gdf_cont in
  let stds := std <$> gdf_cont in
  for_enumerate (normalize_body means stds) 0 cont_names gddf_read.

(** The specification's [normalize(x)], for a column with mean [m] and
    standard deviation [s]. *)
Definition normalize (m s : R) (x : R) : R := ((x - m) / (s + eps))%R.

(** [normalize] on a cell: a missing value stays missing. *)
Definition normalize_cell (m s : R) (x : option R) : option R :=
  match x with
  | Some a => Some (normalize m s a)
  | None => None
  end.

(** The column that one turn of the loop stores under [name]. *)
Definition normalized (col : DaskSeries) (m s : scalar) : DaskSeries :=
  astype (div_scalar (sub_scalar col m) (add_cell (Some eps) s)) float32.

(** [ddf[name]], partition [i], row [j], when there is such a row. *)
Definition cell_at (ddf : DaskDataFrame) (name : string) (i j : nat)
  : option (option R) :=
  col ← ddf !! name; c ← chunks col !! i; values c !! j.

(** *** Datasets used below *)

(** [cont_names] as the notebook sets it. *)
Definition cont_names : list string := ["value"; "id1000"].

Definition example_value : DaskSeries :=
  mkDaskSeries float64
    [mkSeries float64 [Some 1%R; Some 3%R]; mkSeries float64 [None; Some 5%R]].

Definition example_id1000 : DaskSeries :=
  mkDaskSeries int64
    [mkSeries int64 [Some 1%R; None; Some 2%R]; mkSeries int64 [Some 1%R; Some 2%R]].

Definition example_ddf : DaskDataFrame :=
  <["value" := example_value]> {["id1000" := example_id1000]}.

(** Two partitions of 100 rows, column [x] holding 0..99 and 100..199. *)
Definition x_values (start : nat) : list (option R) :=
  (fun i => Some (INR i)) <$> seq start 100.

Definition x_column : DaskSeries :=
  mkDaskSeries int64 [mkSeries int64 (x_values 0); mkSeries int64 (x_values 100)].

Definition scenario : DaskDataFrame := {["x" := x_column]}.

(** ** The random generator *)

(** numpy's generator: a stream of raw words and the position reached. *)
Record RandomState := mkRandomState {
  raw : nat -> nat;
  pos : nat
}.

(** A lazy dask collection whose tasks draw random numbers: every
    computation runs the tasks again, from the generator as it is then. *)
Definition Lazy (A : Type) : Type := RandomState -> A * RandomState.

(** [rk_interval(max, state)]: the next draw, in [0, max].  numpy masks
    the raw word and draws again while it exceeds [max]; the word is
    reduced modulo [max + 1] here, and the statements below hold for every
    stream of raw words. *)
Definition rk_interval (max : nat) (st : RandomState) : nat * RandomState :=
  (raw st (pos st) mod S max, {| raw := raw st; pos := S (pos st) |}).

(** [x[i], x[j] = x[j], x[i]] *)
Definition swap (x : list nat) (i j : nat) : list nat :=
  match x !! i, x !! j with
  | Some a, Some b => <[j := a]> (<[i := b]> x)
  | _, _ => x
  end.

(** [RandomState.shuffle]: [for i in reversed(range(1, n)): j =
    rk_interval(i); swap], entered with [i = n - 1]. *)
Fixpoint shuffle (i : nat) (x : list nat) (st : RandomState)
  : list nat * RandomState :=
  match i with
  | 0 => (x, st)
  | S i' => let '(j, st') := rk_interval i st in shuffle i' (swap x i j) st'
  end.

(** [np.random.permutation(n)] *)
Definition permutation (n : nat) : Lazy (list nat) :=
  fun st => shuffle (n - 1) (seq 0 n) st.

(** ** The shuffle cells *)

Definition path : string := "dummy_dataset.parquet".
Definition path_shuffled : string := "dummy_dataset_shuffled.parquet".

Definition key_le {Row : Type} (a b : Row * nat) : Prop := a.2 ≤ b.2.

#[global] Instance key_le_dec {Row : Type} (a b : Row * nat) : Decision (key_le a b).
Proof. unfold key_le. apply _. Defined.

(** dask's [set_partitions_pre]: the output partition of index value [s]. *)
Definition set_partitions_pre (divisions : list nat) (s : nat) : Z :=
  if decide (default 0 (last divisions) ≤ s) then (Z.of_nat (length divisions) - 2)%Z
  else (Z.of_nat (searchsorted_right divisions s) - 1)%Z.

(** The [npartitions + 1] quantiles of the index that become the
    divisions: the first is its minimum, the last its maximum.  dask
    estimates the quantiles in between; they are the exact order statistics
    here, and what is stated about divisions below uses their number, their
    order and the first and the last of them. *)
Definition partition_quantiles (keys : list nat) (npartitions : nat) : list nat :=
  let sorted := merge_sort le keys in
  (fun i => default 0 (sorted !! (i * (length sorted - 1) / npartitions)))
    <$> seq 0 (S npartitions).

(** The directories by path; a directory holds part files, file [i]
    being [part.i.parquet]. *)
Abbreviation FileSystem Row := (gmap string (list (list Row))).

Section Shuffle.
Context {Row : Type}.

Record World := mkWorld {
  rng : RandomState;
  fs : FileSystem Row
}.

(** The dataframe that [set_index] returns: its divisions are known,
    its partitions are computed on demand. *)
Record Shuffled := mkShuffled {
  divisions : list nat;
  graph : Lazy (list (list (Row * nat)))
}.

(** [df.assign(sort_ind=np.random.permutation(len(df)))] *)
Definition _assign_rand (df : list Row) : Lazy (list (Row * nat)) :=
  fun st => let '(p, st') := permutation (length df) st in (zip df p, st').

(** [ddf.map_partitions(f)], the partitions taken in order. *)
Fixpoint map_partitions {A B : Type} (f : A -> Lazy B) (parts : list A)
  : Lazy (list B) :=
  fun st =>
    match parts with
    | [] => ([], st)
    | p :: parts' =>
        let '(q, st1) := f p st in
        let '(qs, st2) := map_partitions f parts' st1 in
        (q :: qs, st2)
    end.

Definition gddf_read_new (gddf_read : list (list Row))
  : Lazy (list (list (Row * nat))) :=
  map_partitions _assign_rand gddf_read.

(** The all-to-all exchange: output partition [j] receives the rows
    that [set_partitions_pre] sends to [j], each output partition is
    then sorted by the index.  The order among rows of equal index is that
    of the sort used here; nothing is stated about it below. *)
Definition set_partition (divs : list nat) (parts : list (list (Row * nat)))
  : list (list (Row * nat)) :=
  (fun j =>
     merge_sort key_le
       (filter (fun r => set_partitions_pre divs r.2 = Z.of_nat j) (concat parts)))
    <$> seq 0 (length divs - 1).

(** [dd.shuffle.set_index(ddf, 'sort_ind', npartitions)]: the index is
    computed once, now, to find the divisions; the exchange itself is
    part of the returned graph.  Without [npartitions], as in the notebook,
    the number of partitions is kept.  dask treats a dataframe without any
    row apart and returns a single partition for it; what is stated below
    about the number of partitions is for a dataframe that has a row. *)
Definition set_index (ddf : Lazy (list (list (Row * nat))))
    (npartitions : option nat) (st : RandomState) : Shuffled * RandomState :=
  let '(parts, st1) := ddf st in
  let n := default (length parts) npartitions in
  let divs := partition_quantiles (snd <$> concat parts) n in
  ({| divisions := divs;
      graph := fun st' =>
        let '(parts', st'') := ddf st' in (set_partition divs parts', st'') |},
   st1).

(** [ddf.compute()], partition by partition. *)
Definition compute (ddf : Shuffled) : Lazy (list (list (Row * nat))) :=
  graph ddf.

(** What [write_index=False] leaves of a partition. *)
Definition drop_index (part : list (Row * nat)) : list Row := fst <$> part.

(** *** Directories *)

Definition isdir (p : string) (f : FileSystem Row) : bool :=
  bool_decide (is_Some (f !! p)).

(** [k] is [p] or lies below it. *)
Definition under (p k : string) : bool :=
  bool_decide (k = p) || String.prefix (p +:+ "/") k.

(** [shutil.rmtree(p)] *)
Definition rmtree (p : string) (f : FileSystem Row) : result (FileSystem Row) :=
  if isdir p f then Ok (filter (fun kv => under p kv.1 = false) f)
  else Raise (FileNotFoundError p).

(** [os.mkdir(p)] *)
Definition mkdir (p : string) (f : FileSystem Row) : result (FileSystem Row) :=
  if isdir p f then Raise (FileExistsError p) else Ok (<[p := []]> f).

(** [ddf.to_parquet(p, write_index=False)]: one computation of the
    graph, one part file per partition.  An existing directory is
    written into: parts of the same name are replaced, the others stay. *)
Definition to_parquet (ddf : Shuffled) (p : string) (w : World) : World :=
  let '(parts, st') := compute ddf (rng w) in
  let files := drop_index <$> parts in
  {| rng := st';
     fs := <[p := files ++ drop (length files) (default [] (fs w !! p))]> (fs w) |}.

(** [dask_cudf.read_parquet(p, index=False)] followed by [compute()]. *)
Definition read_parquet (p : string) (w : World) : result (list (list Row)) :=
  match fs w !! p with
  | Some parts => Ok parts
  | None => Raise (OSError p)
  end.

(** The cell "Write out shuffled dataset". *)
Definition write_shuffled (gddf_read_shuffled : Shuffled) (w : World)
  : result World :=
  f ← (if isdir path_shuffled (fs w) then rmtree path_shuffled (fs w)
       else Ok (fs w));
  mret (to_parquet gddf_read_shuffled path_shuffled {| rng := rng w; fs := f |}).

(** ** The first notebook: cleaning the working directories *)

Definition basedir : string := "/raid/dask-space/rzamora".
Definition dask_workdir : string := basedir +:+ "/" +:+ "workdir".
Definition demo_output_path : string := basedir +:+ "/" +:+ "demo_output".

(** [if os.path.isdir(p): shutil.rmtree(p); os.mkdir(p)] *)
Definition clean (p : string) (f : FileSystem Row) : result (FileSystem Row) :=
  if isdir p f then f1 ← rmtree p f; mkdir p f1 else Ok f.

Definition clean_directories (f : FileSystem Row) : result (FileSystem Row) :=
  f1 ← clean dask_workdir f;
  clean demo_output_path f1.

End Shuffle.

(** *** A shuffle used below *)

Definition example_state : RandomState := mkRandomState (fun n => n) 0.

Definition example_rows : list (list nat) := [[10; 20; 30]; [40; 50; 60]].

(** 1000 rows, numbered, in 4 partitions of 250. *)
Definition thousand_rows : list (list nat) :=
  (fun k => seq (250 * k) 250) <$> seq 0 4.

(** The cell that calls [set_index], run on [example_rows]. *)
Definition example_shuffled : Shuffled * RandomState :=
  set_index (gddf_read_new example_rows) None example_state.

(** The state after that cell, with an output directory left by an
    earlier run. *)
Definition example_world : World :=
  {| rng := example_shuffled.2; fs := {[path_shuffled := [[1; 2; 3]; [4]; [5]]]} |}.

(** *** Two more columns used below *)

(** A column whose values are all 7, with one missing. *)
Definition example_constant : DaskSeries :=
  mkDaskSeries float64
    [mkSeries float64 [Some 7%R; None]; mkSeries float64 [Some 7%R]].

(** A column with a single value. *)
Definition example_single : DaskSeries :=
  mkDaskSeries float64 [mkSeries float64 [Some 7%R; None]].

(** ** The first notebook: [ddf.shuffle("id", ignore_index=True)] *)

Section HashShuffle.
Context {Row Key : Type}.
Variable on : Row -> Key.
Variable hash : Key -> nat.

(** A row goes to the partition that the hash of its key names, modulo
    the number of partitions, which is kept.  dask does not fix the order of
    the rows within an output partition; it is the order of the input here,
    and nothing is stated about it below. *)
Definition ddf_shuffle (ddf : list (list Row)) : list (list Row) :=
  (fun j => filter (fun r => hash (on r) mod length ddf = j) (concat ddf))
    <$> seq 0 (length ddf).

End HashShuffle.

(** [ddf.npartitions] *)
Definition npartitions {Row : Type} (ddf : @Shuffled Row) : nat :=
  length (divisions ddf) - 1.

(** * Proofs *)

(** ** Lookups that succeed *)

Lemma getitem_Ok (ddf : DaskDataFrame) (name : string) (col : DaskSeries) :
  ddf !! name = Some col -> getitem ddf name = Ok col.
Proof. unfold getitem. intros ->. reflexivity. Qed.

Lemma index_Ok {A : Type} (l : list A) (i : nat) (x : A) :
  l !! i = Some x -> index l i = Ok x.
Proof. unfold index. intros ->. reflexivity. Qed.

Lemma getitem_list_Ok (ddf : DaskDataFrame) (names : list string) :
  Forall (fun n => is_Some (ddf !! n)) names ->
  exists cols, getitem_list ddf names = Ok cols
    /\ Forall2 (fun n col => ddf !! n = Some col) names cols.
Proof.
  induction 1 as [|n names [col Hcol] _ [cols [Hg Hf]]]; simpl.
  - exists []. split; [reflexivity | constructor].
  - exists (col :: cols). rewrite (getitem_Ok _ _ _ Hcol). simpl.
    rewrite Hg. simpl. split; [reflexivity | by constructor].
Qed.

Lemma Forall2_lookup_insert_ne (df : DaskDataFrame) (name : string) (v : DaskSeries)
    (names : list string) (cols : list DaskSeries) :
  name ∉ names ->
  Forall2 (fun n col => df !! n = Some col) names cols ->
  Forall2 (fun n col => <[name := v]> df !! n = Some col) names cols.
Proof.
  intros Hnotin Hf. induction Hf as [|n col names cols Hn Hf IH]; constructor.
  - apply not_elem_of_cons in Hnotin as [Hne _]. by rewrite lookup_insert_ne.
  - apply IH. by apply not_elem_of_cons in Hnotin as [_ ?].
Qed.

(** ** The moments form a commutative monoid *)

Lemma moments_eq (a b : moments) :
  count a = count b -> total a = total b -> total_sq a = total_sq b -> a = b.
Proof. destruct a, b. simpl. by intros -> -> ->. Qed.

Lemma combine_assoc (a b c : moments) :
  combine a (combine b c) = combine (combine a b) c.
Proof. apply moments_eq; simpl; [lia | lra | lra]. Qed.

Lemma combine_comm (a b : moments) : combine a b = combine b a.
Proof. apply moments_eq; simpl; [lia | lra | lra]. Qed.

Lemma combine_zero_l (a : moments) : combine moments_zero a = a.
Proof. apply moments_eq; simpl; [lia | lra | lra]. Qed.

Lemma combine_zero_r (a : moments) : combine a moments_zero = a.
Proof. rewrite combine_comm. apply combine_zero_l. Qed.

Lemma chunk_moments_app (xs ys : list (option R)) :
  chunk_moments (xs ++ ys) = combine (chunk_moments xs) (chunk_moments ys).
Proof.
  induction xs as [|x xs IH]; simpl.
  - by rewrite combine_zero_l.
  - unfold chunk_moments in *. simpl. by rewrite IH, combine_assoc.
Qed.

Lemma chunk_moments_Permutation (xs ys : list (option R)) :
  xs ≡ₚ ys -> chunk_moments xs = chunk_moments ys.
Proof.
  unfold chunk_moments.
  induction 1 as [|x xs ys _ IH|x y xs|xs ys zs _ IH1 _ IH2]; simpl.
  - reflexivity.
  - by rewrite IH.
  - rewrite !combine_assoc. f_equal. apply combine_comm.
  - by rewrite IH1.
Qed.

(** The reduction over the partitions is the single pass over all rows. *)
Lemma reduce_moments_concat (s : DaskSeries) :
  reduce_moments s = chunk_moments (concat (values <$> chunks s)).
Proof.
  unfold reduce_moments. induction (chunks s) as [|c cs IH].
  - reflexivity.
  - rewrite !fmap_cons. cbn [foldr concat]. by rewrite IH, chunk_moments_app.
Qed.

Lemma reduce_moments_Permutation (s1 s2 : DaskSeries) :
  concat (values <$> chunks s1) ≡ₚ concat (values <$> chunks s2) ->
  reduce_moments s1 = reduce_moments s2.
Proof.
  intros H. rewrite !reduce_moments_concat. by apply chunk_moments_Permutation.
Qed.

(** C5.  The mean and the standard deviation of a column do not depend on
    how its rows are partitioned: for every list of partitions, the
    statistics of the column split into these partitions equal those of
    the same rows held in one partition, and those of the partitions taken
    in any other order.  The per-partition moments (count, sum, sum of
    squares) are combined by an associative and commutative operation.
    The equalities are exact in real arithmetic. *)
Theorem mean_std_partition_invariant (d : dtype) (parts : list Series) :
  let whole := mkDaskSeries d [mkSeries d (concat (values <$> parts))] in
  let split := mkDaskSeries d parts in
  (mean split = mean whole /\ std split = std whole)
  /\ (forall parts', parts' ≡ₚ parts ->
        mean (mkDaskSeries d parts') = mean split
        /\ std (mkDaskSeries d parts') = std split)
  /\ (forall a b c, combine a (combine b c) = combine (combine a b) c)
  /\ (forall a b, combine a b = combine b a).
Proof.
  intros whole split.
  assert (Hw : reduce_moments split = reduce_moments whole).
  { apply reduce_moments_Permutation. subst whole split. simpl.
    by rewrite app_nil_r. }
  split; [|split; [|split]].
  - unfold std, var, mean. by rewrite Hw.
  - intros parts' Hp.
    assert (Hq : reduce_moments (mkDaskSeries d parts') = reduce_moments split).
    { apply reduce_moments_Permutation. subst split. simpl. by rewrite Hp. }
    unfold std, var, mean. by rewrite Hq.
  - apply combine_assoc.
  - apply combine_comm.
Qed.

(** ** Step #3 - Normalize *)

Lemma normalize_body_Ok (means stds : list scalar) (df : DaskDataFrame)
    (i : nat) (name : string) (col : DaskSeries) (m s : scalar) :
  df !! name = Some col -> means !! i = Some m -> stds !! i = Some s ->
  normalize_body means stds df i name = Ok (<[name := normalized col m s]> df).
Proof.
  intros Hcol Hm Hs. unfold normalize_body.
  rewrite (getitem_Ok _ _ _ Hcol). simpl.
  rewrite (index_Ok _ _ _ Hm), (index_Ok _ _ _ Hs). simpl.
  erewrite getitem_Ok by apply lookup_insert_eq. simpl.
  rewrite insert_insert_eq. reflexivity.
Qed.

Lemma normalize_loop (means stds : list scalar) (names : list string) :
  forall (i : nat) (cols : list DaskSeries) (df : DaskDataFrame),
  NoDup names ->
  Forall2 (fun n col => df !! n = Some col) names cols ->
  (forall k, k < length names -> is_Some (means !! (i + k)) /\ is_Some (stds !! (i + k))) ->
  exists out, for_enumerate (normalize_body means stds) i names df = Ok out
    /\ (forall k n col, names !! k = Some n -> cols !! k = Some col ->
         exists m s, means !! (i + k) = Some m /\ stds !! (i + k) = Some s
           /\ out !! n = Some (normalized col m s))
    /\ (forall n, n ∉ names -> out !! n = df !! n).
Proof.
  induction names as [|name names IH]; intros i cols df Hnd Hcols Hst.
  - exists df. split; [reflexivity|]. split; [|done].
    intros k n col Hk. by rewrite lookup_nil in Hk.
  - apply NoDup_cons in Hnd as [Hnotin Hnd].
    inversion Hcols as [|? col ? cols' Hcol Hcols']; subst.
    destruct (Hst 0) as [[m Hm] [s Hs]]; [simpl; lia|].
    rewrite Nat.add_0_r in Hm, Hs.
    simpl. rewrite (normalize_body_Ok _ _ _ _ _ _ _ _ Hcol Hm Hs). simpl.
    destruct (IH (S i) cols' (<[name := normalized col m s]> df) Hnd) as (out & Hout & Hin & Hother).
    + by apply Forall2_lookup_insert_ne.
    + intros k Hk. replace (S i + k) with (i + S k) by lia. apply Hst. simpl. lia.
    + exists out. split; [exact Hout|]. split.
      * intros [|k] n c Hn Hc; simpl in Hn, Hc.
        -- inversion Hn; inversion Hc; subst. exists m, s.
           rewrite Nat.add_0_r. split; [done|]. split; [done|].
           rewrite (Hother _ Hnotin). apply lookup_insert_eq.
        -- destruct (Hin k n c Hn Hc) as (m' & s' & ? & ? & ?).
           exists m', s'. replace (i + S k) with (S i + k) by lia. done.
      * intros n Hn. apply not_elem_of_cons in Hn as [Hne Hn].
        rewrite (Hother _ Hn). by apply lookup_insert_ne.
Qed.

(** The cell does not raise when the columns exist, and stores under each
    name of [cont_names] the column normalized with the statistics that
    were computed before the loop. *)
Lemma Step3_normalize_Ok (names : list string) (df : DaskDataFrame) :
  NoDup names ->
  Forall (fun n => is_Some (df !! n)) names ->
  exists out, Step3_normalize names df = Ok out
    /\ (forall n col, n ∈ names -> df !! n = Some col ->
         out !! n = Some (normalized col (mean col) (std col)))
    /\ (forall n, n ∉ names -> out !! n = df !! n).
Proof.
  intros Hnd Hall.
  destruct (getitem_list_Ok df names Hall) as (cols & Hg & Hcols).
  unfold Step3_normalize. rewrite Hg. simpl.
  pose proof (Forall2_length _ _ _ Hcols) as Hlen.
  destruct (normalize_loop (mean <$> cols) (std <$> cols) names 0 cols df Hnd Hcols)
    as (out & Hout & Hin & Hother).
  { intros k Hk. simpl. rewrite !list_lookup_fmap.
    destruct (lookup_lt_is_Some_2 cols k) as [c Hc]; [lia|].
    rewrite Hc. simpl. split; eauto. }
  exists out. split; [exact Hout|]. split; [|exact Hother].
  intros n col Hn Hcol.
  apply list_elem_of_lookup in Hn as [k Hk].
  destruct (Forall2_lookup_l _ _ _ _ _ Hcols Hk) as (c & Hc & Hdf).
  assert (c = col) by congruence. subst c.
  destruct (Hin k n col Hk Hc) as (m & s & Hm & Hs & Ho).
  simpl in Hm, Hs. rewrite list_lookup_fmap, Hc in Hm, Hs. simpl in Hm, Hs.
  congruence.
Qed.

Lemma std_nonneg (col : DaskSeries) (s : R) : std col = Some s -> (0 <= s)%R.
Proof.
  unfold std. destruct (var col) as [v|]; simpl; [|done].
  intros [= <-]. apply sqrt_pos.
Qed.

Lemma eps_pos : (0 < eps)%R.
Proof. unfold eps. lra. Qed.

Lemma normalized_cell (m s : R) (x : option R) :
  (0 <= s)%R ->
  div_cell (sub_cell x (Some m)) (add_cell (Some eps) (Some s)) = normalize_cell m s x.
Proof.
  intros Hs. pose proof eps_pos. destruct x as [a|]; simpl; [|done].
  destruct (decide _) as [Hz|_]; [lra|].
  unfold normalize. by rewrite (Rplus_comm eps s).
Qed.

Lemma normalized_chunks (col : DaskSeries) (m s : R) :
  (0 <= s)%R ->
  chunks (normalized col (Some m) (Some s))
  = (fun c => mkSeries float32 (normalize_cell m s <$> values c)) <$> chunks col.
Proof.
  intros Hs. unfold normalized, astype, div_scalar, sub_scalar, dask_map. simpl.
  rewrite <- !list_fmap_compose. apply list_fmap_ext. intros _ c _.
  unfold series_map. simpl. f_equal.
  rewrite <- !list_fmap_compose. apply list_fmap_ext. intros _ x _. simpl.
  by apply normalized_cell.
Qed.

(** *** The example dataframe *)

Lemma cont_names_NoDup : NoDup cont_names.
Proof.
  unfold cont_names. apply NoDup_cons. split; [|apply NoDup_singleton].
  intros H%list_elem_of_singleton. discriminate.
Qed.

Lemma example_ddf_columns : Forall (fun n => is_Some (example_ddf !! n)) cont_names.
Proof.
  unfold cont_names, example_ddf. repeat constructor.
  - rewrite lookup_insert_eq. eauto.
  - rewrite lookup_insert_ne by done. rewrite lookup_singleton_eq. eauto.
Qed.

Lemma example_value_lookup : example_ddf !! "value" = Some example_value.
Proof. unfold example_ddf. apply lookup_insert_eq. Qed.

Lemma example_id1000_lookup : example_ddf !! "id1000" = Some example_id1000.
Proof.
  unfold example_ddf. rewrite lookup_insert_ne by done. apply lookup_singleton_eq.
Qed.

Lemma example_value_moments : reduce_moments example_value = mkMoments 3 9 35.
Proof. apply moments_eq; simpl; [reflexivity | lra | lra]. Qed.

Lemma example_value_mean : mean example_value = Some 3%R.
Proof.
  unfold mean, mean_agg. rewrite example_value_moments. simpl.
  f_equal. lra.
Qed.

Lemma example_value_std : std example_value = Some 2%R.
Proof.
  unfold std, var, var_aggs. rewrite example_value_moments. simpl.
  f_equal. replace (_ / _)%R with (2 * 2)%R by lra.
  apply sqrt_square. lra.
Qed.

(** C1.  For every column [name] of [cont_names] whose mean [m] and standard
    deviation [s] are defined, Step #3 does not raise and maps every
    partition of the column row by row: a value [x] becomes
    [(x - m) / (s + 1e-7)] and a missing value stays missing, with the same
    [m] and [s] in every partition.  [m] and [s] are the statistics of all
    rows of the column, whatever their partition. *)
Theorem normalize_is_per_row (cont_names : list string) (gddf_read : DaskDataFrame)
    (name : string) (col : DaskSeries) (m s : R) :
  NoDup cont_names ->
  Forall (fun n => is_Some (gddf_read !! n)) cont_names ->
  name ∈ cont_names ->
  gddf_read !! name = Some col ->
  mean col = Some m ->
  std col = Some s ->
  exists out col',
    Step3_normalize cont_names gddf_read = Ok out
    /\ out !! name = Some col'
    /\ Forall2 (fun c c' => values c' = normalize_cell m s <$> values c)
         (chunks col) (chunks col')
    /\ mean col = mean_agg (chunk_moments (concat (values <$> chunks col)))
    /\ std col = sqrt <$> var_aggs 1 (chunk_moments (concat (values <$> chunks col))).
Proof.
  intros Hnd Hall Hin Hcol Hm Hs.
  destruct (Step3_normalize_Ok cont_names gddf_read Hnd Hall) as (out & Hout & Hnorm & _).
  exists out, (normalized col (Some m) (Some s)).
  split; [exact Hout|]. split.
  - rewrite (Hnorm name col Hin Hcol). by rewrite Hm, Hs.
  - split; [|split].
    + rewrite normalized_chunks by (by eapply std_nonneg).
      apply Forall2_fmap_r, Forall_Forall2_diag, Forall_forall. done.
    + unfold mean. by rewrite reduce_moments_concat.
    + unfold std, var. by rewrite reduce_moments_concat.
Qed.

Lemma normalize_is_per_row_witness :
  (NoDup cont_names
   /\ Forall (fun n => is_Some (example_ddf !! n)) cont_names
   /\ "value" ∈ cont_names
   /\ example_ddf !! "value" = Some example_value
   /\ mean example_value = Some 3%R
   /\ std example_value = Some 2%R)
  /\ exists out col',
       Step3_normalize cont_names example_ddf = Ok out
       /\ out !! "value" = Some col'
       /\ Forall2 (fun c c' => values c' = normalize_cell 3 2 <$> values c)
            (chunks example_value) (chunks col')
       /\ mean example_value
          = mean_agg (chunk_moments (concat (values <$> chunks example_value)))
       /\ std example_value
          = sqrt <$> var_aggs 1
                       (chunk_moments (concat (values <$> chunks example_value))).
Proof.
  assert (Hin : "value" ∈ cont_names) by (unfold cont_names; set_solver).
  split.
  - exact (conj cont_names_NoDup (conj example_ddf_columns (conj Hin
             (conj example_value_lookup (conj example_value_mean example_value_std))))).
  - exact (normalize_is_per_row cont_names example_ddf "value" example_value 3 2
             cont_names_NoDup example_ddf_columns Hin example_value_lookup
             example_value_mean example_value_std).
Defined.

(** C9.  After Step #3 every column of [cont_names] has dtype float32,
    in dask's meta and in every partition, whatever its dtype was before;
    the number of partitions is unchanged. *)
Theorem normalized_columns_are_float32 (cont_names : list string)
    (gddf_read : DaskDataFrame) :
  NoDup cont_names ->
  Forall (fun n => is_Some (gddf_read !! n)) cont_names ->
  exists out,
    Step3_normalize cont_names gddf_read = Ok out
    /\ forall name, name ∈ cont_names ->
         exists col col',
           gddf_read !! name = Some col
           /\ out !! name = Some col'
           /\ meta col' = float32
           /\ length (chunks col') = length (chunks col)
           /\ Forall (fun c => dtype_of c = float32) (chunks col').
Proof.
  intros Hnd Hall.
  destruct (Step3_normalize_Ok cont_names gddf_read Hnd Hall) as (out & Hout & Hnorm & _).
  exists out. split; [exact Hout|].
  intros name Hin.
  destruct (proj1 (Forall_forall _ _) Hall name Hin) as [col Hcol].
  exists col, (normalized col (mean col) (std col)).
  split; [exact Hcol|]. split; [by apply Hnorm|]. split; [reflexivity|]. split.
  - unfold normalized, astype, div_scalar, sub_scalar, dask_map. simpl.
    by rewrite !length_fmap.
  - unfold normalized, astype, dask_map. simpl.
    apply Forall_fmap, Forall_forall. done.
Qed.

Lemma normalized_columns_are_float32_witness :
  (NoDup cont_names /\ Forall (fun n => is_Some (example_ddf !! n)) cont_names)
  /\ exists out,
       Step3_normalize cont_names example_ddf = Ok out
       /\ forall name, name ∈ cont_names ->
            exists col col',
              example_ddf !! name = Some col
              /\ out !! name = Some col'
              /\ meta col' = float32
              /\ length (chunks col') = length (chunks col)
              /\ Forall (fun c => dtype_of c = float32) (chunks col').
Proof.
  split.
  - split; [exact cont_names_NoDup | exact example_ddf_columns].
  - exact (normalized_columns_are_float32 cont_names example_ddf
             cont_names_NoDup example_ddf_columns).
Defined.

(** C6.  Round trip: for every value [x] of a normalized column, at the
    same partition and row of the output there is a value [y] with
    [y * (s + 1e-7) + m = x], where [m] and [s] are the mean and standard
    deviation used.  In real arithmetic the recovery is exact. *)
Theorem normalize_round_trip (cont_names : list string) (gddf_read : DaskDataFrame)
    (name : string) (col : DaskSeries) (m s : R) :
  NoDup cont_names ->
  Forall (fun n => is_Some (gddf_read !! n)) cont_names ->
  name ∈ cont_names ->
  gddf_read !! name = Some col ->
  mean col = Some m ->
  std col = Some s ->
  exists out col',
    Step3_normalize cont_names gddf_read = Ok out
    /\ out !! name = Some col'
    /\ forall i j c x,
         chunks col !! i = Some c -> values c !! j = Some (Some x) ->
         exists c' y,
           chunks col' !! i = Some c'
           /\ values c' !! j = Some (Some y)
           /\ (y * (s + eps) + m = x)%R.
Proof.
  intros Hnd Hall Hin Hcol Hm Hs.
  destruct (Step3_normalize_Ok cont_names gddf_read Hnd Hall) as (out & Hout & Hnorm & _).
  pose proof (std_nonneg col s Hs) as Hpos. pose proof eps_pos as Heps.
  exists out, (normalized col (Some m) (Some s)).
  split; [exact Hout|]. split.
  { rewrite (Hnorm name col Hin Hcol). by rewrite Hm, Hs. }
  intros i j c x Hc Hx.
  exists (mkSeries float32 (normalize_cell m s <$> values c)), (normalize m s x).
  split; [|split].
  - rewrite normalized_chunks by done. by rewrite list_lookup_fmap, Hc.
  - simpl. by rewrite list_lookup_fmap, Hx.
  - unfold normalize. field. lra.
Qed.

Lemma normalize_round_trip_witness :
  (NoDup cont_names
   /\ Forall (fun n => is_Some (example_ddf !! n)) cont_names
   /\ "value" ∈ cont_names
   /\ example_ddf !! "value" = Some example_value
   /\ mean example_value = Some 3%R
   /\ std example_value = Some 2%R)
  /\ exists out col',
       Step3_normalize cont_names example_ddf = Ok out
       /\ out !! "value" = Some col'
       /\ forall i j c x,
            chunks example_value !! i = Some c -> values c !! j = Some (Some x) ->
            exists c' y,
              chunks col' !! i = Some c'
              /\ values c' !! j = Some (Some y)
              /\ (y * (2 + eps) + 3 = x)%R.
Proof.
  assert (Hin : "value" ∈ cont_names) by (unfold cont_names; set_solver).
  split.
  - exact (conj cont_names_NoDup (conj example_ddf_columns (conj Hin
             (conj example_value_lookup (conj example_value_mean example_value_std))))).
  - exact (normalize_round_trip cont_names example_ddf "value" example_value 3 2
             cont_names_NoDup example_ddf_columns Hin example_value_lookup
             example_value_mean example_value_std).
Defined.

(** ** The end-to-end scenario *)

Lemma chunk_moments_range (n a : nat) :
  chunk_moments ((fun i => Some (INR i)) <$> seq a n)
  = mkMoments n
      (INR n * INR a + INR n * (INR n - 1) / 2)
      (INR n * INR a * INR a + INR a * INR n * (INR n - 1)
       + (INR n - 1) * INR n * (2 * INR n - 1) / 6).
Proof.
  revert a. induction n as [|n IH]; intros a.
  - apply moments_eq; simpl; [reflexivity | lra | lra].
  - cbn [seq]. rewrite fmap_cons. unfold chunk_moments in *. cbn [foldr].
    rewrite IH. rewrite !S_INR.
    apply moments_eq; simpl; [reflexivity | field | field].
Qed.

Lemma INR_100 : INR 100 = 100%R.
Proof. rewrite INR_IZR_INZ. reflexivity. Qed.

Lemma INR_199 : INR 199 = 199%R.
Proof. rewrite INR_IZR_INZ. reflexivity. Qed.

Lemma INR_200 : INR 200 = 200%R.
Proof. rewrite INR_IZR_INZ. reflexivity. Qed.

Lemma x_column_moments : reduce_moments x_column = mkMoments 200 19900 2646700.
Proof.
  unfold reduce_moments, x_column, x_values. cbn [chunks fmap list_fmap foldr values].
  rewrite !chunk_moments_range.
  apply moments_eq; cbn [count total total_sq combine moments_zero];
    rewrite ?INR_100; change (INR 0) with 0%R; [reflexivity | lra | lra].
Qed.

Lemma x_column_mean : mean x_column = Some 99.5%R.
Proof.
  unfold mean, mean_agg. rewrite x_column_moments. cbn [count total].
  destruct (decide _) as [?|_]; [lia|].
  f_equal. rewrite INR_200. lra.
Qed.

Lemma x_column_std : std x_column = Some (sqrt 3350).
Proof.
  unfold std, var, var_aggs. rewrite x_column_moments. cbn [count total total_sq].
  destruct (decide _) as [?|_]; [lia|].
  change (200 - 1) with 199. rewrite INR_199, INR_200.
  cbn [fmap option_fmap option_map]. f_equal. f_equal. lra.
Qed.

Lemma sqrt_3350_bounds : (57.878 < sqrt 3350 < 57.88)%R.
Proof.
  split.
  - apply Rsqr_incrst_0; [| lra | apply sqrt_pos].
    rewrite Rsqr_sqrt by lra. unfold Rsqr. lra.
  - apply Rsqr_incrst_0; [| apply sqrt_pos | lra].
    rewrite Rsqr_sqrt by lra. unfold Rsqr. lra.
Qed.

Lemma scenario_Step3 :
  exists out,
    Step3_normalize ["x"] scenario = Ok out
    /\ cell_at out "x" 0 0 = Some (Some (normalize 99.5 (sqrt 3350) 0)).
Proof.
  destruct (Step3_normalize_Ok ["x"] scenario) as (out & Hout & Hnorm & _).
  { apply NoDup_singleton. }
  { repeat constructor. unfold scenario. rewrite lookup_singleton_eq. eauto. }
  exists out. split; [exact Hout|].
  unfold cell_at. rewrite (Hnorm "x" x_column).
  - rewrite x_column_mean, x_column_std. cbn [mbind option_bind].
    rewrite normalized_chunks by apply sqrt_pos. reflexivity.
  - by apply list_elem_of_singleton.
  - apply lookup_singleton_eq.
Qed.

Lemma row0_bounds : (-1.7192 < normalize 99.5 (sqrt 3350) 0 < -1.719)%R.
Proof.
  pose proof sqrt_3350_bounds as [Hlo Hhi].
  unfold normalize, eps.
  set (b := (sqrt 3350 + 1e-7)%R).
  assert (Hb : (57.878 < b < 57.8801)%R) by (unfold b; lra).
  assert (Hy : ((0 - 99.5) / b * b = 0 - 99.5)%R).
  { unfold Rdiv. rewrite Rmult_assoc, Rinv_l by lra. lra. }
  set (y := ((0 - 99.5) / b)%R) in *.
  split; nra.
Qed.

(** C8, as the code has it.  On two partitions holding 0..99 and 100..199,
    Step #3 uses mean 99.5 and the sample standard deviation
    [sqrt 3350], which is 57.879 within 1e-3; row 0 of the output is
    [(0 - 99.5) / (sqrt 3350 + 1e-7)], which is -1.719 within 1e-3. *)
Theorem end_to_end_scenario :
  exists out s y,
    Step3_normalize ["x"] scenario = Ok out
    /\ mean x_column = Some 99.5%R
    /\ std x_column = Some s
    /\ cell_at out "x" 0 0 = Some (Some y)
    /\ y = normalize 99.5 s 0
    /\ (Rabs (s - 57.879) <= 1e-3)%R
    /\ (Rabs (y - -1.719) <= 1e-3)%R.
Proof.
  destruct scenario_Step3 as (out & Hout & Hcell).
  pose proof sqrt_3350_bounds. pose proof row0_bounds.
  exists out, (sqrt 3350), (normalize 99.5 (sqrt 3350) 0).
  split; [exact Hout|]. split; [exact x_column_mean|].
  split; [exact x_column_std|]. split; [exact Hcell|]. split; [reflexivity|].
  split; apply Rabs_le; lra.
Qed.

(** C8 as stated does not hold: the standard deviation is more than 0.1
    away from 57.73 and row 0 more than 1e-3 away from -1.723. *)
Lemma end_to_end_not_as_stated :
  exists out s y,
    Step3_normalize ["x"] scenario = Ok out
    /\ std x_column = Some s
    /\ cell_at out "x" 0 0 = Some (Some y)
    /\ (Rabs (s - 57.73) > 0.1)%R
    /\ (Rabs (y - -1.723) > 1e-3)%R.
Proof.
  destruct scenario_Step3 as (out & Hout & Hcell).
  pose proof sqrt_3350_bounds. pose proof row0_bounds.
  exists out, (sqrt 3350), (normalize 99.5 (sqrt 3350) 0).
  split; [exact Hout|]. split; [exact x_column_std|]. split; [exact Hcell|].
  split.
  - rewrite Rabs_right by lra. lra.
  - rewrite Rabs_right by lra. lra.
Qed.

(** ** Step #2 - Fill NA/NaN *)

Lemma Rsort_length (l : list R) : length (Rsort l) = length l.
Proof. unfold Rsort. apply Permutation_length, merge_sort_Permutation. Qed.

Lemma median_is_Some (a : list R) : a ≠ [] -> is_Some (median a).
Proof.
  intros Hne. unfold median.
  pose proof (Rsort_length a) as Hlen.
  set (sorted := Rsort a) in *.
  assert (Hn : 0 < length sorted).
  { rewrite Hlen. destruct a; [done | simpl; lia]. }
  destruct (decide (length sorted = 0)) as [?|_]; [lia|].
  assert (Hhalf : length sorted / 2 < length sorted)
    by (apply Nat.div_lt; lia).
  destruct (Nat.even _).
  - destruct (lookup_lt_is_Some_2 sorted (length sorted / 2 - 1)) as [x ->]; [lia|].
    destruct (lookup_lt_is_Some_2 sorted (length sorted / 2)) as [y ->]; [lia|].
    simpl. eauto.
  - by apply lookup_lt_is_Some_2.
Qed.

#[local] Instance Rle_total : Total Rle.
Proof. intros x y. destruct (Rle_dec x y); [by left | right; lra]. Qed.

#[local] Instance Rle_trans : Transitive Rle.
Proof. intros x y z. apply Rle_trans. Qed.

#[local] Instance Rle_antisym : AntiSymm (=) Rle.
Proof. intros x y. apply Rle_antisym. Qed.

(** The sorted values are the one sorted arrangement of the values. *)
Lemma Rsort_unique (l l' : list R) :
  Sorted Rle l' -> l' ≡ₚ l -> Rsort l = l'.
Proof.
  intros Hs Hp. unfold Rsort. apply (Sorted_unique Rle).
  - apply Sorted_merge_sort. apply _.
  - exact Hs.
  - by rewrite merge_sort_Permutation.
Qed.

Section FillNAProofs.
Variable estimate : DaskSeries -> R.

Lemma quantile_Ok (col : DaskSeries) :
  present col ≠ [] -> quantile estimate col = Ok (estimate col).
Proof. unfold quantile. by destruct (present col). Qed.

Lemma quantile_Raise (col : DaskSeries) :
  present col = [] -> quantile estimate col = Raise ValueError.
Proof. unfold quantile. by intros ->. Qed.

Lemma fill_value_float (col : DaskSeries) :
  is_float (meta col) = true -> present col ≠ [] ->
  fill_value estimate col = Ok (Some (estimate col)).
Proof.
  intros Hd Hp. unfold fill_value. rewrite (quantile_Ok col Hp).
  by destruct (meta col).
Qed.

Lemma fill_value_int (col : DaskSeries) :
  is_float (meta col) = false -> present col ≠ [] ->
  fill_value estimate col = Ok (Some (IZR (int_of_float (estimate col)))).
Proof.
  intros Hd Hp. unfold fill_value. rewrite (quantile_Ok col Hp).
  by destruct (meta col).
Qed.

Lemma fill_value_Ok (col : DaskSeries) :
  present col ≠ [] -> exists a, fill_value estimate col = Ok (Some a).
Proof.
  intros Hp. destruct (is_float (meta col)) eqn:Hd.
  - eexists. by apply fill_value_float.
  - eexists. by apply fill_value_int.
Qed.

Lemma fill_value_Raise (col : DaskSeries) :
  present col = [] -> fill_value estimate col = Raise ValueError.
Proof. intros Hp. unfold fill_value. by rewrite (quantile_Raise col Hp). Qed.

Lemma fillna_body_Ok (df : DaskDataFrame) (name : string) (col : DaskSeries)
    (v : scalar) :
  df !! name = Some col -> fill_value estimate col = Ok v ->
  fillna_body estimate df name = Ok (<[name := fillna col v]> df).
Proof.
  intros Hcol Hv. unfold fillna_body.
  rewrite (getitem_Ok _ _ _ Hcol). simpl. rewrite Hv. simpl. reflexivity.
Qed.

Lemma fillna_loop (names : list string) :
  forall (cols : list DaskSeries) (df : DaskDataFrame),
  NoDup names ->
  Forall2 (fun n col => df !! n = Some col) names cols ->
  Forall (fun col => present col ≠ []) cols ->
  exists out, for_each (fillna_body estimate) names df = Ok out
    /\ (forall k n col, names !! k = Some n -> cols !! k = Some col ->
         exists a, fill_value estimate col = Ok (Some a)
                   /\ out !! n = Some (fillna col (Some a)))
    /\ (forall n, n ∉ names -> out !! n = df !! n).
Proof.
  induction names as [|name names IH]; intros cols df Hnd Hcols Hfill.
  - exists df. split; [reflexivity|]. split; [|done].
    intros k n col Hk. by rewrite lookup_nil in Hk.
  - apply NoDup_cons in Hnd as [Hnotin Hnd].
    inversion Hcols as [|? col ? cols' Hcol Hcols']; subst.
    inversion Hfill as [|? ? Hp Hfill']; subst.
    destruct (fill_value_Ok col Hp) as [a Hv].
    simpl. rewrite (fillna_body_Ok _ _ _ _ Hcol Hv). simpl.
    destruct (IH cols' (<[name := fillna col (Some a)]> df) Hnd)
      as (out & Hout & Hin & Hother).
    + by apply Forall2_lookup_insert_ne.
    + exact Hfill'.
    + exists out. split; [exact Hout|]. split.
      * intros [|k] n c Hn Hc; simpl in Hn, Hc.
        -- inversion Hn; inversion Hc; subst. exists a. split; [done|].
           rewrite (Hother _ Hnotin). apply lookup_insert_eq.
        -- by apply (Hin k).
      * intros n Hn. apply not_elem_of_cons in Hn as [Hne Hn].
        rewrite (Hother _ Hn). by apply lookup_insert_ne.
Qed.

(** The cell does not raise when the columns exist and every one of
    them holds a value. *)
Lemma Step2_fillna_Ok (names : list string) (df : DaskDataFrame) :
  NoDup names ->
  Forall (fun n => exists c, df !! n = Some c /\ present c ≠ []) names ->
  exists out, Step2_fillna estimate names df = Ok out
    /\ (forall n col, n ∈ names -> df !! n = Some col ->
         exists a, fill_value estimate col = Ok (Some a)
                   /\ out !! n = Some (fillna col (Some a)))
    /\ (forall n, n ∉ names -> out !! n = df !! n).
Proof.
  intros Hnd Hall.
  assert (Hex : exists cols, Forall2 (fun n col => df !! n = Some col) names cols
                /\ Forall (fun col => present col ≠ []) cols).
  { clear Hnd. induction Hall as [|n names (c & Hc & Hp) _ (cols & Hf & Hv)].
    - exists []. split; constructor.
    - exists (c :: cols). split; constructor; done. }
  destruct Hex as (cols & Hcols & Hfill).
  destruct (fillna_loop names cols df Hnd Hcols Hfill) as (out & Hout & Hin & Hother).
  exists out. split; [exact Hout|]. split; [|exact Hother].
  intros n col Hn Hcol.
  apply list_elem_of_lookup in Hn as [k Hk].
  destruct (Forall2_lookup_l _ _ _ _ _ Hcols Hk) as (c & Hc & Hdf).
  assert (c = col) by congruence. subst c.
  by apply (Hin k).
Qed.

(** C3, as the code has it.  When every column of [cont_names] holds a
    value, Step #2 replaces exactly the missing values of such a column by
    one fill value [v] and leaves the other values unchanged, in every
    partition.  [v] is what [quantile(0.5)] returned for the column, dask's
    estimate; for an int64 or int32 column it is that number truncated
    toward zero, an integer.  The dtype of the column is kept, in dask's
    meta and in every partition: an integer column stays an integer
    column. *)
Theorem fillna_fills_exactly_the_missing (cont_names : list string)
    (gddf_read : DaskDataFrame) (name : string) (col : DaskSeries) :
  NoDup cont_names ->
  Forall (fun n => exists c, gddf_read !! n = Some c /\ present c ≠ []) cont_names ->
  name ∈ cont_names ->
  gddf_read !! name = Some col ->
  exists out col' v,
    Step2_fillna estimate cont_names gddf_read = Ok out
    /\ out !! name = Some col'
    /\ quantile estimate col = Ok (estimate col)
    /\ v = (if is_float (meta col) then estimate col
            else IZR (int_of_float (estimate col)))
    /\ meta col' = meta col
    /\ Forall2 (fun c c' =>
         dtype_of c' = dtype_of c
         /\ Forall2 (fun x x' =>
              match x with
              | Some a => x' = Some a
              | None => x' = Some v
              end) (values c) (values c'))
         (chunks col) (chunks col').
Proof.
  intros Hnd Hall Hin Hcol.
  destruct (Step2_fillna_Ok cont_names gddf_read Hnd Hall) as (out & Hout & Hfill & _).
  destruct (Hfill name col Hin Hcol) as (v & Hv & Ho).
  destruct (proj1 (Forall_forall _ _) Hall name Hin) as (c & Hc & Hp).
  assert (c = col) by congruence. subst c.
  exists out, (fillna col (Some v)), v.
  split; [exact Hout|]. split; [exact Ho|]. split; [by apply quantile_Ok|].
  split; [|split; [reflexivity|]].
  - destruct (is_float (meta col)) eqn:Hd.
    + rewrite (fill_value_float col Hd Hp) in Hv. congruence.
    + rewrite (fill_value_int col Hd Hp) in Hv. congruence.
  - unfold fillna. simpl. apply Forall2_fmap_r, Forall_Forall2_diag, Forall_forall.
    intros c _. simpl. split; [reflexivity|].
    apply Forall2_fmap_r, Forall_Forall2_diag, Forall_forall.
    intros [a|] _; reflexivity.
Qed.

End FillNAProofs.

(** *** The estimate of dask 2 *)

#[local] Instance val_count_le_total : Total val_count_le.
Proof.
  intros [x n] [y m]. unfold val_count_le. simpl.
  destruct (Rtotal_order x y) as [?|[->|?]]; [by left; left | | by right; left].
  destruct (decide (n <= m)); [left | right]; right; split; [done | lia | done | lia].
Qed.

#[local] Instance val_count_le_trans : Transitive val_count_le.
Proof.
  intros [x n] [y m] [z k]. unfold val_count_le. simpl.
  intros [?|[-> ?]] [?|[-> ?]]; [left; lra | by left | by left | right; split; [done | lia]].
Qed.

#[local] Instance val_count_le_antisym : AntiSymm (=) val_count_le.
Proof.
  intros [x n] [y m]. unfold val_count_le. simpl.
  intros [?|[-> ?]] [?|[? ?]]; try lra. f_equal. lia.
Qed.

Lemma val_count_sort_unique (l l' : list (R * nat)) :
  Sorted val_count_le l' -> l' ≡ₚ l -> merge_sort val_count_le l = l'.
Proof.
  intros Hs Hp. apply (Sorted_unique val_count_le).
  - apply Sorted_merge_sort. apply _.
  - exact Hs.
  - by rewrite merge_sort_Permutation.
Qed.

Lemma length_cumsum (l : list nat) : forall acc, length (cumsum acc l) = length l.
Proof. induction l as [|x l IH]; intros acc; simpl; [done | by rewrite IH]. Qed.

Lemma searchsorted_right_le (divs : list nat) (s : nat) :
  searchsorted_right divs s <= length divs.
Proof.
  induction divs as [|d divs IH]; simpl; [lia|]. destruct (decide _); lia.
Qed.

Lemma array_getitem_Ok {A : Type} (a : list A) (i : Z) :
  (- Z.of_nat (length a) <= i < Z.of_nat (length a))%Z ->
  exists x, array_getitem a i = Ok x.
Proof.
  intros Hi. unfold array_getitem, index.
  destruct (decide (i < 0)%Z).
  - rewrite decide_True by lia.
    destruct (lookup_lt_is_Some_2 a (Z.to_nat (Z.of_nat (length a) + i))) as [x ->];
      [lia | eauto].
  - rewrite decide_True by lia.
    destruct (lookup_lt_is_Some_2 a (Z.to_nat i)) as [x ->]; [lia | eauto].
Qed.

(** The merge returns a number as soon as one partition has a value. *)
Lemma merge_percentiles_Ok (vals : list (scalar * nat)) :
  omap (fun vn : scalar * nat =>
          if decide (vn.2 = 0) then None
          else (fun v => (v, vn.2)) <$> vn.1) vals ≠ [] ->
  exists v, merge_percentiles vals = Ok v.
Proof.
  intros Hne. unfold merge_percentiles.
  destruct (omap _ vals) as [|p L] eqn:HL; [done|].
  set (counts := (fun vn : R * nat => (vn.1, 50 * vn.2)) <$> p :: L).
  assert (Hlen : length (merge_sort val_count_le counts) = S (length L)).
  { rewrite (Permutation_length (merge_sort_Permutation _ _)).
    unfold counts. by rewrite length_fmap. }
  apply array_getitem_Ok. rewrite length_fmap, Hlen.
  pose proof (searchsorted_right_le
    (cumsum 0 (merge_sort val_count_le counts).*2)
    (50 * sum_list ((p :: L).*2))) as Hr.
  rewrite length_cumsum, length_fmap, Hlen in Hr. lia.
Qed.

Lemma percentiles_nil (cs : list Series) :
  omap (fun vn : scalar * nat =>
          if decide (vn.2 = 0) then None
          else (fun v => (v, vn.2)) <$> vn.1) (_percentile <$> cs) = []
  <-> omap (fun x => x) (concat (values <$> cs)) = [].
Proof.
  induction cs as [|c cs IH]; [done|].
  rewrite !fmap_cons. cbn [concat omap list_omap]. rewrite omap_app.
  change (_percentile c)
    with (median (omap (fun x => x) (values c)), length (omap (fun x => x) (values c))).
  cbn [fst snd].
  destruct (omap (fun x => x) (values c)) as [|a l].
  - simpl. exact IH.
  - rewrite decide_False by done.
    destruct (median_is_Some (a :: l)) as [m ->]; [done|]. simpl. split; done.
Qed.

(** [quantile] with the estimate of dask 2 is [dask_quantile], ValueError
    included. *)
Lemma quantile_dask_estimate (s : DaskSeries) :
  quantile dask_estimate s = dask_quantile s.
Proof.
  unfold quantile, dask_estimate, dask_quantile.
  pose proof (percentiles_nil (chunks s)) as Hnil. fold (present s) in Hnil.
  destruct (present s) as [|a l].
  - unfold merge_percentiles. by rewrite (proj2 Hnil eq_refl).
  - destruct (merge_percentiles_Ok (_percentile <$> chunks s)) as [v ->]; [|done].
    intros H. by apply Hnil in H.
Qed.

Lemma median_1_3 : median [1; 3]%R = Some 2%R.
Proof.
  unfold median. rewrite (Rsort_unique [1; 3]%R [1; 3]%R).
  - simpl. f_equal. lra.
  - repeat constructor; lra.
  - done.
Qed.

Lemma median_1_2 : median [1; 2]%R = Some 1.5%R.
Proof.
  unfold median. rewrite (Rsort_unique [1; 2]%R [1; 2]%R).
  - simpl. f_equal. lra.
  - repeat constructor; lra.
  - done.
Qed.

Lemma median_5 : median [5]%R = Some 5%R.
Proof.
  unfold median. rewrite (Rsort_unique [5]%R [5]%R); [done | repeat constructor | done].
Qed.

(** Partitions [1, 3] and [NaN, 5]: the percentiles are 2 and 5, the merge
    takes 5. *)
Lemma example_value_dask_quantile : dask_quantile example_value = Ok 5%R.
Proof.
  unfold dask_quantile, example_value, _percentile. cbn [chunks fmap list_fmap values].
  cbn [omap list_omap length]. rewrite median_1_3, median_5.
  unfold merge_percentiles. cbn [omap list_omap fst snd fmap option_fmap option_map].
  rewrite !decide_False by done. cbn [fmap list_fmap option_fmap option_map fst snd].
  rewrite (val_count_sort_unique _ [(2%R, 100); (5%R, 50)]).
  - reflexivity.
  - apply Sorted_cons; [apply Sorted_cons; constructor | apply HdRel_cons].
    left. simpl. lra.
  - reflexivity.
Qed.

(** Partitions [1, null, 2] and [1, 2]: both percentiles are 1.5. *)
Lemma example_id1000_dask_quantile : dask_quantile example_id1000 = Ok 1.5%R.
Proof.
  unfold dask_quantile, example_id1000, _percentile. cbn [chunks fmap list_fmap values].
  cbn [omap list_omap length]. rewrite median_1_2.
  unfold merge_percentiles. cbn [omap list_omap fst snd fmap option_fmap option_map].
  rewrite !decide_False by done. cbn [fmap list_fmap option_fmap option_map fst snd].
  rewrite (val_count_sort_unique _ [(1.5%R, 100); (1.5%R, 100)]).
  - reflexivity.
  - apply Sorted_cons; [apply Sorted_cons; constructor | apply HdRel_cons].
    right. simpl. split; [done | lia].
  - reflexivity.
Qed.

Lemma example_value_median : quantile_half example_value = Some 3%R.
Proof.
  unfold quantile_half, median.
  rewrite (Rsort_unique (present example_value) [1; 3; 5]%R).
  - reflexivity.
  - repeat constructor; lra.
  - done.
Qed.

Lemma example_id1000_median : quantile_half example_id1000 = Some 1.5%R.
Proof.
  unfold quantile_half, median.
  rewrite (Rsort_unique (present example_id1000) [1; 1; 2; 2]%R).
  - simpl. f_equal. lra.
  - repeat constructor; lra.
  - apply perm_skip, perm_swap.
Qed.

Lemma int_of_float_1_5 : int_of_float 1.5 = 1%Z.
Proof.
  unfold int_of_float. destruct (decide _) as [_|H]; [|lra].
  symmetry. apply Int_part_spec. lra.
Qed.

Lemma one_and_a_half_not_integral (z : Z) : IZR z <> 1.5%R.
Proof.
  intros H. assert (H2 : IZR (2 * z) = IZR 3) by (rewrite mult_IZR; lra).
  apply eq_IZR in H2. lia.
Qed.

Lemma example_ddf_fillable :
  Forall (fun n => exists c, example_ddf !! n = Some c /\ present c ≠ []) cont_names.
Proof.
  unfold cont_names, example_ddf. repeat constructor.
  - exists example_value. rewrite lookup_insert_eq. split; [done|]. done.
  - exists example_id1000. rewrite lookup_insert_ne by done.
    rewrite lookup_singleton_eq. split; [done|]. done.
Qed.

Lemma fillna_fills_exactly_the_missing_witness :
  (NoDup cont_names
   /\ Forall (fun n => exists c, example_ddf !! n = Some c /\ present c ≠ []) cont_names
   /\ "id1000" ∈ cont_names
   /\ example_ddf !! "id1000" = Some example_id1000)
  /\ exists out col' v,
       Step2_fillna dask_estimate cont_names example_ddf = Ok out
       /\ out !! "id1000" = Some col'
       /\ quantile dask_estimate example_id1000 = Ok (dask_estimate example_id1000)
       /\ v = (if is_float (meta example_id1000) then dask_estimate example_id1000
               else IZR (int_of_float (dask_estimate example_id1000)))
       /\ meta col' = meta example_id1000
       /\ Forall2 (fun c c' =>
            dtype_of c' = dtype_of c
            /\ Forall2 (fun x x' =>
                 match x with
                 | Some a => x' = Some a
                 | None => x' = Some v
                 end) (values c) (values c'))
            (chunks example_id1000) (chunks col').
Proof.
  assert (Hin : "id1000" ∈ cont_names) by (unfold cont_names; set_solver).
  split.
  - exact (conj cont_names_NoDup (conj example_ddf_fillable
             (conj Hin example_id1000_lookup))).
  - exact (fillna_fills_exactly_the_missing dask_estimate cont_names example_ddf
             "id1000" example_id1000 cont_names_NoDup example_ddf_fillable Hin
             example_id1000_lookup).
Defined.

(** C3 as stated does not hold, on the example dataframe with the
    estimate of dask 2.  The float64 column [value], with 1, 3 in one
    partition and a missing value, 5 in the other, has the median 3 and its
    missing value is filled with 5.  The int64 column [id1000], with 1, a
    missing value, 2 in one partition and 1, 2 in the other, has the
    non-integral median 1.5, which is also the estimate, yet its missing
    value is filled with 1 and the column stays int64. *)
Lemma fillna_keeps_int_column :
  exists out col_value col_id1000,
    Step2_fillna dask_estimate cont_names example_ddf = Ok out
    /\ out !! "value" = Some col_value
    /\ out !! "id1000" = Some col_id1000
    /\ quantile_half example_value = Some 3%R
    /\ dask_quantile example_value = Ok 5%R
    /\ chunks col_value
       = [mkSeries float64 [Some 1%R; Some 3%R]; mkSeries float64 [Some 5%R; Some 5%R]]
    /\ meta example_id1000 = int64
    /\ quantile_half example_id1000 = Some 1.5%R
    /\ dask_quantile example_id1000 = Ok 1.5%R
    /\ (forall z : Z, IZR z <> 1.5%R)
    /\ is_float (meta col_id1000) = false
    /\ chunks col_id1000
       = [mkSeries int64 [Some 1%R; Some 1%R; Some 2%R];
          mkSeries int64 [Some 1%R; Some 2%R]].
Proof.
  destruct (Step2_fillna_Ok dask_estimate cont_names example_ddf cont_names_NoDup
              example_ddf_fillable) as (out & Hout & Hfill & _).
  destruct (Hfill "value" example_value) as (v & Hv & Hov).
  { unfold cont_names. set_solver. }
  { exact example_value_lookup. }
  destruct (Hfill "id1000" example_id1000) as (i & Hi & Hoi).
  { unfold cont_names. set_solver. }
  { exact example_id1000_lookup. }
  assert (Hev : dask_estimate example_value = 5%R).
  { unfold dask_estimate. by rewrite example_value_dask_quantile. }
  assert (Hei : dask_estimate example_id1000 = 1.5%R).
  { unfold dask_estimate. by rewrite example_id1000_dask_quantile. }
  rewrite (fill_value_float dask_estimate example_value eq_refl) in Hv by done.
  rewrite (fill_value_int dask_estimate example_id1000 eq_refl) in Hi by done.
  rewrite Hev in Hv. rewrite Hei, int_of_float_1_5 in Hi.
  injection Hv as <-. injection Hi as <-.
  exists out, (fillna example_value (Some 5%R)), (fillna example_id1000 (Some 1%R)).
  split; [exact Hout|]. split; [exact Hov|]. split; [exact Hoi|].
  split; [exact example_value_median|]. split; [exact example_value_dask_quantile|].
  split; [reflexivity|]. split; [reflexivity|].
  split; [exact example_id1000_median|]. split; [exact example_id1000_dask_quantile|].
  split; [exact one_and_a_half_not_integral|]. split; reflexivity.
Qed.

(** ** The generator draws permutations *)

Lemma swap_Permutation (x : list nat) (i j : nat) : swap x i j ≡ₚ x.
Proof.
  unfold swap.
  destruct (x !! i) as [a|] eqn:Hi; [|done].
  destruct (x !! j) as [b|] eqn:Hj; [|done].
  pose proof (lookup_lt_Some _ _ _ Hi) as Hli.
  pose proof (lookup_lt_Some _ _ _ Hj) as Hlj.
  apply Permutation_inj. split; [by rewrite !length_insert|].
  exists (fun k => if decide (k = i) then j else if decide (k = j) then i else k).
  split.
  - intros k1 k2. repeat case_decide; intros; subst; congruence.
  - intros k. rewrite !list_lookup_insert, !length_insert.
    destruct (decide (k = i)) as [->|Hki].
    + destruct (decide (j = i)) as [->|Hji].
      * rewrite decide_True by done. congruence.
      * rewrite decide_False by (intros [? _]; congruence).
        rewrite decide_True by done. congruence.
    + destruct (decide (k = j)) as [->|Hkj].
      * rewrite decide_True by done. congruence.
      * rewrite !decide_False by (intros [? _]; congruence). done.
Qed.

Lemma shuffle_Permutation (i : nat) :
  forall (x : list nat) (st : RandomState), (shuffle i x st).1 ≡ₚ x.
Proof.
  induction i as [|i IH]; intros x st; simpl; [done|].
  rewrite IH. apply swap_Permutation.
Qed.

Lemma permutation_Permutation (n : nat) (st : RandomState) :
  (permutation n st).1 ≡ₚ seq 0 n.
Proof. apply shuffle_Permutation. Qed.

Lemma permutation_length (n : nat) (st : RandomState) :
  length (permutation n st).1 = n.
Proof. by rewrite permutation_Permutation, length_seq. Qed.

(** How often a value occurs among [n] consecutive numbers. *)
Lemma count_seq (v a n : nat) :
  length (filter (fun k => k = v) (seq a n)) = if decide (a ≤ v < a + n) then 1 else 0.
Proof.
  revert a. induction n as [|n IH]; intros a; simpl.
  - case_decide; [lia | done].
  - rewrite filter_cons.
    destruct (decide (a = v)); simpl; rewrite IH; repeat case_decide; lia.
Qed.

Lemma searchsorted_right_full (divs : list nat) (s : nat) :
  searchsorted_right divs s <= length divs
  /\ (searchsorted_right divs s = length divs -> Forall (fun d => d ≤ s) divs).
Proof.
  induction divs as [|d divs [IH1 IH2]]; simpl.
  - split; [lia | constructor].
  - case_decide; split; try (simpl; lia).
    intros [= Hfull]. constructor; [done | by apply IH2].
Qed.

Lemma set_partitions_pre_range (divs : list nat) (d0 s : nat) :
  2 ≤ length divs -> head divs = Some d0 -> d0 ≤ s ->
  (0 ≤ set_partitions_pre divs s < Z.of_nat (length divs - 1))%Z.
Proof.
  intros Hlen Hhd Hd0. unfold set_partitions_pre.
  destruct (decide (default 0 (last divs) ≤ s)) as [_|Hlast]; [lia|].
  destruct (searchsorted_right_full divs s) as [Hle Hfull].
  assert (1 ≤ searchsorted_right divs s).
  { destruct divs as [|d divs]; [done|]. injection Hhd as ->. simpl.
    rewrite decide_True by done. lia. }
  assert (searchsorted_right divs s ≠ length divs).
  { intros Heq. apply Hlast.
    destruct (last divs) as [d|] eqn:Hl; simpl; [|lia].
    apply last_Some_elem_of in Hl.
    by apply (proj1 (Forall_forall _ _) (Hfull Heq)). }
  lia.
Qed.

Lemma partition_quantiles_length (keys : list nat) (n : nat) :
  length (partition_quantiles keys n) = S n.
Proof. unfold partition_quantiles. by rewrite length_fmap, length_seq. Qed.

Lemma partition_quantiles_head (keys : list nat) (n : nat) :
  head (partition_quantiles keys n) = Some (default 0 (merge_sort le keys !! 0)).
Proof.
  unfold partition_quantiles. cbn [seq fmap list_fmap head].
  by rewrite Nat.mul_0_l, Nat.Div0.div_0_l.
Qed.

(** The least index value is 0 as soon as 0 is among them. *)
Lemma sorted_head_zero (keys : list nat) :
  keys = [] \/ 0 ∈ keys -> default 0 (merge_sort le keys !! 0) = 0.
Proof.
  intros Hk.
  pose proof (merge_sort_Permutation le keys) as Hperm.
  pose proof (StronglySorted_merge_sort le keys) as Hsorted.
  destruct (merge_sort le keys) as [|h t]; [done|]. simpl.
  destruct Hk as [->|Hin].
  - by apply Permutation_nil_r in Hperm.
  - rewrite <- Hperm in Hin. apply StronglySorted_inv in Hsorted as [_ Hall].
    apply elem_of_cons in Hin as [->|Hin]; [done|].
    apply (proj1 (Forall_forall _ _) Hall) in Hin. lia.
Qed.

Lemma under_refl (p : string) : under p p = true.
Proof. unfold under. by rewrite bool_decide_eq_true_2. Qed.

Section ShuffleProofs.
Context {Row : Type}.
Implicit Types (df : list Row) (st : RandomState).
Implicit Types (f : FileSystem Row) (w : @World Row).

(** *** [_assign_rand] *)

Lemma _assign_rand_spec df st :
  ((_assign_rand df st).1).*1 = df
  /\ ((_assign_rand df st).1).*2 ≡ₚ seq 0 (length df).
Proof.
  unfold _assign_rand.
  pose proof (permutation_length (length df) st) as Hlen.
  pose proof (permutation_Permutation (length df) st) as Hperm.
  destruct (permutation (length df) st) as [p st']. simpl in *.
  split.
  - apply fst_zip. lia.
  - rewrite snd_zip by lia. exact Hperm.
Qed.

Lemma map_partitions_assign_rand (parts : list (list Row)) :
  forall st,
  Forall2 (fun df t => t.*1 = df /\ t.*2 ≡ₚ seq 0 (length df))
    parts (gddf_read_new parts st).1.
Proof.
  unfold gddf_read_new.
  induction parts as [|df parts IH]; intros st; simpl; [constructor|].
  pose proof (_assign_rand_spec df st) as Hdf.
  destruct (_assign_rand df st) as [q st1]. simpl in Hdf.
  specialize (IH st1).
  destruct (map_partitions _assign_rand parts st1) as [qs st2]. simpl in *.
  by constructor.
Qed.

Lemma tags_count (parts : list (list Row)) (tagged : list (list (Row * nat)))
    (v : nat) :
  Forall2 (fun df t => t.*1 = df /\ t.*2 ≡ₚ seq 0 (length df)) parts tagged ->
  length (filter (fun k => k = v) (concat tagged).*2)
  = length (filter (fun df => v < length df) parts).
Proof.
  induction 1 as [|df t parts tagged [_ Hperm] _ IH]; simpl; [done|].
  rewrite fmap_app, filter_app, length_app, IH, Hperm, count_seq, filter_cons.
  repeat case_decide; simpl; lia.
Qed.

(** C10.  In every partition the column [sort_ind] that [_assign_rand]
    adds is a permutation of [0 .. len(partition) - 1], drawn for that
    partition alone: every value below the length occurs exactly once in
    the partition.  Over the whole dataframe a value [v] occurs once per
    partition longer than [v], hence at most as often as there are
    partitions, and more than once as soon as two partitions are longer
    than [v]. *)
Theorem sort_ind_is_a_permutation_per_partition
    (gddf_read : list (list Row)) (st : RandomState) :
  let tagged := (gddf_read_new gddf_read st).1 in
  Forall2 (fun df t =>
      t.*1 = df
      /\ t.*2 ≡ₚ seq 0 (length df)
      /\ forall v, v < length df -> length (filter (fun k => k = v) t.*2) = 1)
    gddf_read tagged
  /\ forall v,
       length (filter (fun k => k = v) (concat tagged).*2)
       = length (filter (fun df => v < length df) gddf_read)
       /\ length (filter (fun k => k = v) (concat tagged).*2) ≤ length gddf_read.
Proof.
  intros tagged. pose proof (map_partitions_assign_rand gddf_read st) as Hall.
  fold tagged in Hall. split.
  - eapply Forall2_impl; [exact Hall|]. intros df t [Hfst Hperm].
    split; [done|]. split; [done|]. intros v Hv.
    rewrite Hperm, count_seq. case_decide; [done | lia].
  - intros v. rewrite (tags_count gddf_read tagged v Hall).
    split; [done|]. apply length_filter.
Qed.

(** *** The exchange keeps every row *)

Lemma filter_disjoint_app (P Q : Row * nat -> Prop)
    `{!forall x, Decision (P x), !forall x, Decision (Q x)} (l : list (Row * nat)) :
  (forall x, P x -> Q x -> False) ->
  filter P l ++ filter Q l ≡ₚ filter (fun x => P x \/ Q x) l.
Proof.
  intros Hdis. induction l as [|x l IH]; [done|].
  rewrite !filter_cons.
  destruct (decide (P x)) as [HP|HP], (decide (Q x)) as [HQ|HQ].
  - destruct (Hdis x HP HQ).
  - rewrite decide_True by auto. simpl. by rewrite IH.
  - rewrite decide_True by auto. rewrite <- Permutation_middle. by rewrite IH.
  - rewrite decide_False by tauto. exact IH.
Qed.

Lemma buckets_Permutation (divs : list nat) (l : list (Row * nat)) (n : nat) :
  concat ((fun j => merge_sort key_le
             (filter (fun r => set_partitions_pre divs r.2 = Z.of_nat j) l))
          <$> seq 0 n)
  ≡ₚ filter (fun r => (0 ≤ set_partitions_pre divs r.2 < Z.of_nat n)%Z) l.
Proof.
  induction n as [|n IH].
  - simpl. induction l as [|x l IHl]; [done|].
    rewrite filter_cons, decide_False by lia. exact IHl.
  - rewrite seq_S, fmap_app, concat_app, IH. simpl.
    rewrite app_nil_r, merge_sort_Permutation, filter_disjoint_app by lia.
    erewrite list_filter_iff; [reflexivity|]. intros r. simpl. lia.
Qed.

Lemma set_partition_Permutation (divs : list nat) (parts : list (list (Row * nat)))
    (d0 : nat) :
  2 ≤ length divs -> head divs = Some d0 ->
  Forall (fun r => d0 ≤ r.2) (concat parts) ->
  concat (set_partition divs parts) ≡ₚ concat parts.
Proof.
  intros Hlen Hhd Hall. unfold set_partition.
  rewrite buckets_Permutation.
  induction Hall as [|r l Hr _ IH]; [done|].
  rewrite filter_cons, decide_True; [by rewrite IH|].
  by apply (set_partitions_pre_range divs d0).
Qed.

Lemma tags_have_zero (parts : list (list Row)) (tagged : list (list (Row * nat))) :
  Forall2 (fun df t => t.*1 = df /\ t.*2 ≡ₚ seq 0 (length df)) parts tagged ->
  (concat tagged).*2 = [] \/ 0 ∈ (concat tagged).*2.
Proof.
  induction 1 as [|df t parts tagged [_ Hperm] _ IH]; simpl; [by left|].
  rewrite fmap_app. destruct df as [|r df].
  - simpl in Hperm. apply Permutation_nil_r in Hperm. rewrite Hperm. exact IH.
  - right. apply elem_of_app. left. rewrite Hperm. simpl. by left.
Qed.

Lemma tagged_rows (parts : list (list Row)) (tagged : list (list (Row * nat))) :
  Forall2 (fun df t => t.*1 = df /\ t.*2 ≡ₚ seq 0 (length df)) parts tagged ->
  (concat tagged).*1 = concat parts.
Proof.
  induction 1 as [|df t parts tagged [Hfst _] _ IH]; simpl; [done|].
  by rewrite fmap_app, Hfst, IH.
Qed.

Lemma drop_index_concat (out : list (list (Row * nat))) :
  concat (drop_index <$> out) = (concat out).*1.
Proof.
  induction out as [|p out IH]; [done|].
  rewrite fmap_cons. cbn [concat]. by rewrite fmap_app, IH.
Qed.

(** C7.  Whatever the generator draws when the divisions are computed and
    when the shuffled dataframe is computed, the rows of the output
    partitions, index dropped, are a permutation of the rows of the input
    partitions: no row (the tuple of its column values) is lost and none is
    duplicated.  This holds for any number of input partitions and any
    requested number of output partitions other than 0.  The output has
    the requested number of partitions, the number of input partitions when
    none is requested, for a dataframe that has a row and either more than
    one partition or no requested number, as in the notebook. *)
Theorem shuffle_preserves_rows (gddf_read : list (list Row))
    (npartitions : option nat) (st st' : RandomState) :
  npartitions ≠ Some 0 ->
  let gddf_read_shuffled := (set_index (gddf_read_new gddf_read) npartitions st).1 in
  let out := (compute gddf_read_shuffled st').1 in
  concat (drop_index <$> out) ≡ₚ concat gddf_read
  /\ (concat gddf_read ≠ [] ->
      1 < length gddf_read \/ npartitions = None ->
      length out = default (length gddf_read) npartitions).
Proof.
  intros Hnp. unfold set_index, compute.
  pose proof (map_partitions_assign_rand gddf_read st) as Hfirst.
  pose proof (map_partitions_assign_rand gddf_read st') as Hsecond.
  destruct (gddf_read_new gddf_read st) as [parts st1]. simpl in Hfirst.
  cbn [fst graph].
  destruct (gddf_read_new gddf_read st') as [parts' st2]. simpl in Hsecond.
  cbn [fst].
  set (n := default (length parts) npartitions).
  set (divs := partition_quantiles (concat parts).*2 n).
  assert (Hn : n = default (length gddf_read) npartitions).
  { unfold n. by rewrite (Forall2_length _ _ _ Hfirst). }
  assert (Hlen : length divs = S n) by apply partition_quantiles_length.
  split.
  - rewrite drop_index_concat.
    destruct (decide (n = 0)) as [Hz|Hz].
    + assert (gddf_read = []) as ->.
      { destruct npartitions as [k|]; simpl in Hn; [congruence|].
        destruct gddf_read; [done | simpl in Hn; lia]. }
      inversion Hsecond; subst. unfold set_partition. rewrite Hlen, Hz. done.
    + rewrite (set_partition_Permutation divs parts' 0).
      * by rewrite (tagged_rows gddf_read).
      * lia.
      * unfold divs. rewrite partition_quantiles_head. f_equal.
        apply sorted_head_zero. by apply (tags_have_zero gddf_read).
      * apply Forall_forall. intros; lia.
  - intros _ _. unfold set_partition. rewrite length_fmap, length_seq, Hlen. lia.
Qed.

(** *** Directories *)

Lemma isdir_true p f : isdir p f = true <-> is_Some (f !! p).
Proof. unfold isdir. apply bool_decide_eq_true. Qed.

Lemma isdir_false p f : isdir p f = false <-> f !! p = None.
Proof.
  unfold isdir. rewrite bool_decide_eq_false. symmetry. apply eq_None_not_Some.
Qed.

Lemma rmtree_Ok p f :
  isdir p f = true ->
  exists f', rmtree p f = Ok f'
    /\ f' !! p = None
    /\ (forall q, under p q = true -> f' !! q = None)
    /\ (forall q, under p q = false -> f' !! q = f !! q).
Proof.
  intros Hdir. unfold rmtree. rewrite Hdir. eexists. split; [reflexivity|].
  assert (Hunder : forall q, under p q = true ->
            filter (fun kv : string * list (list Row) => under p kv.1 = false) f !! q = None).
  { intros q Hq. apply map_lookup_filter_None. right. intros x _. simpl.
    by rewrite Hq. }
  split; [apply Hunder, under_refl|]. split; [exact Hunder|].
  intros q Hq. destruct (f !! q) as [x|] eqn:Hfq.
  - by apply map_lookup_filter_Some.
  - apply map_lookup_filter_None. by left.
Qed.

Lemma clean_Ok p f :
  exists f', clean p f = Ok f'
    /\ f' !! p = (if isdir p f then Some [] else None)
    /\ (forall q, under p q = false -> f' !! q = f !! q).
Proof.
  unfold clean. destruct (isdir p f) eqn:Hdir.
  - destruct (rmtree_Ok p f Hdir) as (f1 & -> & Hp & _ & Hother). simpl.
    unfold mkdir. rewrite (proj2 (isdir_false p f1) Hp).
    eexists. split; [reflexivity|]. split; [apply lookup_insert_eq|].
    intros q Hq. rewrite lookup_insert_ne; [by apply Hother|].
    intros <-. by rewrite under_refl in Hq.
  - exists f. split; [reflexivity|]. split; [by apply isdir_false | done].
Qed.

(** The write cell does not raise; the directory then holds the parts of
    the one computation made while writing. *)
Lemma write_shuffled_Ok (gddf_read_shuffled : @Shuffled Row) w :
  exists w',
    write_shuffled gddf_read_shuffled w = Ok w'
    /\ fs w' !! path_shuffled
       = Some (drop_index <$> (compute gddf_read_shuffled (rng w)).1)
    /\ rng w' = (compute gddf_read_shuffled (rng w)).2
    /\ (forall q, under path_shuffled q = false -> fs w' !! q = fs w !! q).
Proof.
  unfold write_shuffled. destruct w as [st f]. cbn [rng fs].
  assert (Hf : exists f1,
    (if isdir path_shuffled f then rmtree path_shuffled f else Ok f)
    = Ok f1 /\ f1 !! path_shuffled = None
    /\ (forall q, under path_shuffled q = false -> f1 !! q = f !! q)).
  { destruct (isdir path_shuffled f) eqn:Hdir.
    - destruct (rmtree_Ok _ _ Hdir) as (f1 & Hr & Hp & _ & Hother). by exists f1.
    - exists f. split; [done|]. split; [by apply isdir_false | done]. }
  destruct Hf as (f1 & -> & Hp & Hother). simpl.
  unfold to_parquet. cbn [rng fs].
  destruct (compute gddf_read_shuffled st) as [parts st']. cbn [fst snd].
  eexists. split; [reflexivity|]. cbn [rng fs]. split; [|split; [done|]].
  - rewrite lookup_insert_eq, Hp. simpl. by rewrite drop_nil, app_nil_r.
  - intros q Hq. rewrite lookup_insert_ne; [by apply Hother|].
    intros <-. by rewrite under_refl in Hq.
Qed.

(** C2, as the code has it.  The assignment is fixed by writing: the write
    cell computes the shuffled dataframe once, and every later read of the
    written directory returns the partitions of that computation, whatever
    the state of the generator at the time of the read; two reads are
    equal. *)
Theorem written_shuffle_is_fixed (gddf_read_shuffled : @Shuffled Row)
    (w : @World Row) :
  exists w',
    write_shuffled gddf_read_shuffled w = Ok w'
    /\ forall st1 st2,
         read_parquet path_shuffled {| rng := st1; fs := fs w' |}
         = Ok (drop_index <$> (compute gddf_read_shuffled (rng w)).1)
         /\ read_parquet path_shuffled {| rng := st2; fs := fs w' |}
            = read_parquet path_shuffled {| rng := st1; fs := fs w' |}.
Proof.
  destruct (write_shuffled_Ok gddf_read_shuffled w) as (w' & Hw & Hfiles & _).
  exists w'. split; [exact Hw|]. intros st1 st2.
  unfold read_parquet. cbn [fs]. by rewrite Hfiles.
Qed.

(** C4, as the code has it.  The write cell never raises: an existing
    output directory is removed with all it holds and the directory then
    contains exactly the newly written parts; paths outside it are left as
    they were.  The cell of the first notebook that cleans the working
    directories never raises either: a directory that existed is empty
    afterwards, one that did not exist is not created. *)
Theorem write_replaces_existing_output (gddf_read_shuffled : @Shuffled Row)
    (w : @World Row) (f : FileSystem Row) :
  (exists w',
     write_shuffled gddf_read_shuffled w = Ok w'
     /\ fs w' !! path_shuffled
        = Some (drop_index <$> (compute gddf_read_shuffled (rng w)).1)
     /\ forall q, under path_shuffled q = false -> fs w' !! q = fs w !! q)
  /\ (exists f',
        clean_directories f = Ok f'
        /\ f' !! dask_workdir = (if isdir dask_workdir f then Some [] else None)
        /\ f' !! demo_output_path
           = (if isdir demo_output_path f then Some [] else None)).
Proof.
  split.
  - destruct (write_shuffled_Ok gddf_read_shuffled w) as (w' & Hw & Hfiles & _ & Hother).
    by exists w'.
  - unfold clean_directories.
    destruct (clean_Ok dask_workdir f) as (f1 & -> & Hwork & Hother1). simpl.
    destruct (clean_Ok demo_output_path f1) as (f2 & -> & Hout & Hother2).
    exists f2. split; [reflexivity|]. split.
    + rewrite Hother2 by reflexivity. exact Hwork.
    + rewrite Hout. unfold isdir. by rewrite Hother1 by reflexivity.
Qed.

End ShuffleProofs.

(** *** The example shuffle *)

(** 1000 rows in 4 partitions, shuffled into 6. *)
Lemma shuffle_preserves_rows_witness :
  Some 6 ≠ Some 0
  /\ concat thousand_rows ≠ []
  /\ 1 < length thousand_rows
  /\ let gddf_read_shuffled :=
       (set_index (gddf_read_new thousand_rows) (Some 6) example_state).1 in
     let out := (compute gddf_read_shuffled example_state).1 in
     concat (drop_index <$> out) ≡ₚ concat thousand_rows
     /\ length out = 6.
Proof.
  assert (Hne : Some 6 ≠ Some 0) by discriminate.
  assert (Hrows : concat thousand_rows ≠ []) by discriminate.
  assert (Hparts : 1 < length thousand_rows) by (simpl; lia).
  pose proof (shuffle_preserves_rows thousand_rows (Some 6) example_state
                example_state Hne) as [Hperm Hlen].
  exact (conj Hne (conj Hrows (conj Hparts
           (conj Hperm (Hlen Hrows (or_introl Hparts)))))).
Defined.

Lemma example_compute :
  drop_index <$> (compute example_shuffled.1 example_shuffled.2).1
  = [[10; 60]; [30; 50; 20; 40]].
Proof. vm_compute. reflexivity. Qed.

(** C2 as stated does not hold: two computations of the same shuffled
    dataframe, one after the other, put different rows in the first
    partition. *)
Lemma recomputed_shuffle_differs :
  let first := compute example_shuffled.1 example_shuffled.2 in
  let second := compute example_shuffled.1 first.2 in
  drop_index <$> first.1 = [[10; 60]; [30; 50; 20; 40]]
  /\ drop_index <$> second.1 = [[10; 40]; [20; 60; 30; 50]]
  /\ drop_index <$> first.1 <> drop_index <$> second.1.
Proof.
  vm_compute. split; [reflexivity|]. split; [reflexivity|]. discriminate.
Qed.

(** C4 as stated does not hold: with an output directory left by an
    earlier run the write cell succeeds and replaces its content, and
    [to_parquet] alone writes into it and keeps the part it does not
    replace. *)
Lemma existing_output_is_not_refused :
  isdir path_shuffled (fs example_world) = true
  /\ fs example_world !! path_shuffled = Some [[1; 2; 3]; [4]; [5]]
  /\ (exists w',
        write_shuffled example_shuffled.1 example_world = Ok w'
        /\ fs w' !! path_shuffled = Some [[10; 60]; [30; 50; 20; 40]])
  /\ fs (to_parquet example_shuffled.1 path_shuffled example_world) !! path_shuffled
     = Some [[10; 60]; [30; 50; 20; 40]; [5]].
Proof.
  assert (Hold : fs example_world !! path_shuffled = Some [[1; 2; 3]; [4]; [5]])
    by apply lookup_singleton_eq.
  split; [|split; [exact Hold|split]].
  - apply isdir_true. rewrite Hold. eauto.
  - destruct (write_shuffled_Ok example_shuffled.1 example_world)
      as (w' & Hw & Hfiles & _).
    exists w'. split; [exact Hw|]. rewrite Hfiles.
    change (rng example_world) with example_shuffled.2. by rewrite example_compute.
  - unfold to_parquet.
    pose proof example_compute as Hc. change (rng example_world) with example_shuffled.2.
    destruct (compute example_shuffled.1 example_shuffled.2) as [parts st']. simpl in Hc.
    cbn [fs]. rewrite lookup_insert_eq, Hc, Hold. reflexivity.
Qed.

(** * Further properties of the cells *)

(** ** When the two preprocessing steps raise *)

Lemma fill_value_inv (estimate : DaskSeries -> R) (col : DaskSeries) :
  match fill_value estimate col with
  | Ok v => present col ≠ [] /\ is_Some v
  | Raise e => e = ValueError /\ present col = []
  end.
Proof.
  destruct (decide (present col = [])) as [Hp|Hp].
  - by rewrite (fill_value_Raise estimate col Hp).
  - destruct (fill_value_Ok estimate col Hp) as [a ->]. eauto.
Qed.

Lemma fillna_body_inv (estimate : DaskSeries -> R) (df : DaskDataFrame) (x : string) :
  match fillna_body estimate df x with
  | Ok df' =>
      exists s v, df !! x = Some s /\ fill_value estimate s = Ok v
        /\ df' = <[x := fillna s v]> df
  | Raise e =>
      (e = KeyError x /\ df !! x = None)
      \/ (exists s, df !! x = Some s /\ fill_value estimate s = Raise e)
  end.
Proof.
  unfold fillna_body, getitem. destruct (df !! x) as [s|]; simpl; [|by left].
  destruct (fill_value estimate s) as [v|e] eqn:Hv; simpl.
  - exists s, v. done.
  - right. exists s. done.
Qed.

Lemma fillna_loop_inv (estimate : DaskSeries -> R) (names : list string) :
  forall df : DaskDataFrame,
  NoDup names ->
  match for_each (fillna_body estimate) names df with
  | Ok _ =>
      Forall (fun n => exists c, df !! n = Some c /\ present c ≠ []) names
  | Raise e =>
      (e = ValueError
       /\ exists n col, n ∈ names /\ df !! n = Some col /\ present col = [])
      \/ (exists n, e = KeyError n /\ n ∈ names /\ df !! n = None)
  end.
Proof.
  induction names as [|x names IH]; intros df Hnd; cbn [for_each]; [constructor|].
  apply NoDup_cons in Hnd as [Hx Hnd].
  pose proof (fillna_body_inv estimate df x) as Hbody.
  destruct (fillna_body estimate df x) as [df'|e]; simpl.
  - destruct Hbody as (s & v & Hs & Hv & ->).
    pose proof (fill_value_inv estimate s) as Hfv. rewrite Hv in Hfv.
    destruct Hfv as [Hp _].
    specialize (IH (<[x := fillna s v]> df) Hnd).
    assert (Hsame : forall n, n ∈ names -> <[x := fillna s v]> df !! n = df !! n).
    { intros n Hn. apply lookup_insert_ne. intros ->. done. }
    destruct (for_each (fillna_body estimate) names (<[x := fillna s v]> df))
      as [out|e].
    + constructor; [eauto|]. apply Forall_forall. intros n Hn.
      destruct (proj1 (Forall_forall _ _) IH n Hn) as (c & Hc & Hpc).
      exists c. by rewrite <- (Hsame n Hn).
    + destruct IH as [(-> & n & col & Hn & Hc & Hpc) | (n & -> & Hn & Hc)].
      * left. split; [done|]. exists n, col. rewrite (Hsame n Hn) in Hc.
        split; [by right | done].
      * right. exists n. rewrite (Hsame n Hn) in Hc. split; [done|].
        split; [by right | done].
  - destruct Hbody as [[-> Hs] | (s & Hs & Hv)].
    + right. exists x. split; [done|]. split; [by left | done].
    + pose proof (fill_value_inv estimate s) as Hfv. rewrite Hv in Hfv.
      destruct Hfv as (-> & Hp). left. split; [done|].
      exists x, s. split; [by left | done].
Qed.

(** X1.  For distinct column names and whatever [quantile(0.5)] estimates,
    Step #2 completes exactly when every column of [cont_names] exists and
    holds at least one value.  When it raises, it is the [ValueError] of
    [quantile] on a column without a value, of any dtype, or a [KeyError]
    for a missing column. *)
Theorem Step2_fillna_completes_iff (estimate : DaskSeries -> R)
    (cont_names : list string) (gddf_read : DaskDataFrame) :
  NoDup cont_names ->
  ((exists out, Step2_fillna estimate cont_names gddf_read = Ok out)
   <-> Forall (fun n => exists c, gddf_read !! n = Some c /\ present c ≠ [])
         cont_names)
  /\ (forall e, Step2_fillna estimate cont_names gddf_read = Raise e ->
        (e = ValueError
         /\ exists n col, n ∈ cont_names /\ gddf_read !! n = Some col
              /\ present col = [])
        \/ (exists n, e = KeyError n /\ n ∈ cont_names /\ gddf_read !! n = None)).
Proof.
  intros Hnd. pose proof (fillna_loop_inv estimate cont_names gddf_read Hnd) as Hinv.
  unfold Step2_fillna. split; [split|].
  - intros [out Hout]. by rewrite Hout in Hinv.
  - intros Hall.
    destruct (Step2_fillna_Ok estimate cont_names gddf_read Hnd Hall) as (out & Hout & _).
    by exists out.
  - intros e He. by rewrite He in Hinv.
Qed.

Lemma getitem_list_inv (df : DaskDataFrame) (names : list string) :
  match getitem_list df names with
  | Ok _ => Forall (fun n => is_Some (df !! n)) names
  | Raise e => exists n, e = KeyError n /\ n ∈ names /\ df !! n = None
  end.
Proof.
  induction names as [|x names IH]; cbn [getitem_list]; [constructor|].
  unfold getitem. destruct (df !! x) as [s|] eqn:Hs; simpl.
  2:{ exists x. split; [done|]. split; [by left | done]. }
  destruct (getitem_list df names) as [cols|e]; simpl.
  - constructor; [by rewrite Hs | done].
  - destruct IH as (n & -> & Hn & Hc). exists n. split; [done|]. split; [by right | done].
Qed.

(** X2.  For distinct column names, Step #3 completes exactly when every
    column of [cont_names] exists; otherwise it raises a [KeyError] for a
    missing column, from [gddf_read[cont_names]], before any statistic is
    computed. *)
Theorem Step3_normalize_completes_iff (cont_names : list string)
    (gddf_read : DaskDataFrame) :
  NoDup cont_names ->
  ((exists out, Step3_normalize cont_names gddf_read = Ok out)
   <-> Forall (fun n => is_Some (gddf_read !! n)) cont_names)
  /\ (forall e, Step3_normalize cont_names gddf_read = Raise e ->
        exists n, e = KeyError n /\ n ∈ cont_names /\ gddf_read !! n = None).
Proof.
  intros Hnd. pose proof (getitem_list_inv gddf_read cont_names) as Hinv.
  assert (Hok : Forall (fun n => is_Some (gddf_read !! n)) cont_names ->
                exists out, Step3_normalize cont_names gddf_read = Ok out).
  { intros Hall.
    destruct (Step3_normalize_Ok cont_names gddf_read Hnd Hall) as (out & Hout & _).
    by exists out. }
  destruct (getitem_list gddf_read cont_names) as [cols|e0] eqn:Hg.
  - destruct (Hok Hinv) as [out Hout]. split; [split; eauto|].
    intros e He. congruence.
  - assert (Hraise : Step3_normalize cont_names gddf_read = Raise e0).
    { unfold Step3_normalize. by rewrite Hg. }
    split; [split|].
    + intros [out Hout]. congruence.
    + intros Hall. destruct (Hok Hall) as [out Hout]. congruence.
    + intros e He. assert (e = e0) by congruence. by subst.
Qed.


(** *** What the fill leaves and what it changes *)

Lemma fillna_shape (col : DaskSeries) (v : scalar) :
  Forall2 (fun c c' => length (values c') = length (values c))
    (chunks col) (chunks (fillna col v)).
Proof.
  unfold fillna. cbn [chunks].
  apply Forall2_fmap_r, Forall_Forall2_diag, Forall_forall.
  intros c _. cbn. by rewrite length_fmap.
Qed.

Lemma normalized_shape (col : DaskSeries) (m s : scalar) :
  Forall2 (fun c c' => length (values c') = length (values c))
    (chunks col) (chunks (normalized col m s)).
Proof.
  unfold normalized, astype, div_scalar, sub_scalar, dask_map. cbn [chunks].
  rewrite <- !list_fmap_compose.
  apply Forall2_fmap_r, Forall_Forall2_diag, Forall_forall.
  intros c _. cbn. by rewrite !length_fmap.
Qed.

(** X3.  Step #2 touches only the columns of [cont_names]: when every
    one of them holds a value, every other column is returned as it was, no
    column appears or disappears, and a filled column keeps its partitions
    and the number of rows of each. *)
Theorem Step2_fillna_frame (estimate : DaskSeries -> R) (cont_names : list string)
    (gddf_read : DaskDataFrame) :
  NoDup cont_names ->
  Forall (fun n => exists c, gddf_read !! n = Some c /\ present c ≠ []) cont_names ->
  exists out,
    Step2_fillna estimate cont_names gddf_read = Ok out
    /\ (forall n, n ∉ cont_names -> out !! n = gddf_read !! n)
    /\ (forall n, is_Some (out !! n) <-> is_Some (gddf_read !! n))
    /\ (forall n col, n ∈ cont_names -> gddf_read !! n = Some col ->
          exists col', out !! n = Some col'
            /\ Forall2 (fun c c' => length (values c') = length (values c))
                 (chunks col) (chunks col')).
Proof.
  intros Hnd Hall.
  destruct (Step2_fillna_Ok estimate cont_names gddf_read Hnd Hall)
    as (out & Hout & Hin & Hother).
  exists out. split; [exact Hout|]. split; [exact Hother|]. split.
  - intros n. destruct (decide (n ∈ cont_names)) as [Hn|Hn].
    + destruct (proj1 (Forall_forall _ _) Hall n Hn) as (c & Hc & _).
      destruct (Hin n c Hn Hc) as (v & _ & Ho). rewrite Ho, Hc. split; eauto.
    + by rewrite (Hother n Hn).
  - intros n col Hn Hcol. destruct (Hin n col Hn Hcol) as (v & _ & Ho).
    exists (fillna col (Some v)). split; [exact Ho | apply fillna_shape].
Qed.

(** X4.  Step #3 touches only the columns of [cont_names]: every other
    column is returned as it was, no column appears or disappears, and a
    normalized column keeps its partitions and the number of rows of each. *)
Theorem Step3_normalize_frame (cont_names : list string) (gddf_read : DaskDataFrame) :
  NoDup cont_names ->
  Forall (fun n => is_Some (gddf_read !! n)) cont_names ->
  exists out,
    Step3_normalize cont_names gddf_read = Ok out
    /\ (forall n, n ∉ cont_names -> out !! n = gddf_read !! n)
    /\ (forall n, is_Some (out !! n) <-> is_Some (gddf_read !! n))
    /\ (forall n col, n ∈ cont_names -> gddf_read !! n = Some col ->
          exists col', out !! n = Some col'
            /\ Forall2 (fun c c' => length (values c') = length (values c))
                 (chunks col) (chunks col')).
Proof.
  intros Hnd Hall.
  destruct (Step3_normalize_Ok cont_names gddf_read Hnd Hall) as (out & Hout & Hin & Hother).
  exists out. split; [exact Hout|]. split; [exact Hother|]. split.
  - intros n. destruct (decide (n ∈ cont_names)) as [Hn|Hn].
    + destruct (proj1 (Forall_forall _ _) Hall n Hn) as (c & Hc).
      rewrite (Hin n c Hn Hc), Hc. split; eauto.
    + by rewrite (Hother n Hn).
  - intros n col Hn Hcol.
    exists (normalized col (mean col) (std col)).
    split; [by apply Hin | apply normalized_shape].
Qed.

(** The cells of a column that hold a value. *)
Lemma fillna_full (col : DaskSeries) (a : R) :
  Forall (fun c => Forall is_Some (values c)) (chunks (fillna col (Some a))).
Proof.
  unfold fillna. cbn [chunks]. apply Forall_fmap, Forall_forall. intros c _.
  cbn. apply Forall_fmap, Forall_forall. intros [x|] _; cbn; eauto.
Qed.

(** X5.  When Step #2 completes, that is when every column of
    [cont_names] holds a value, no column of [cont_names] has a missing
    value left, in any partition. *)
Theorem Step2_fillna_no_missing (estimate : DaskSeries -> R)
    (cont_names : list string) (gddf_read : DaskDataFrame) :
  NoDup cont_names ->
  Forall (fun n => exists c, gddf_read !! n = Some c /\ present c ≠ []) cont_names ->
  exists out,
    Step2_fillna estimate cont_names gddf_read = Ok out
    /\ forall name, name ∈ cont_names ->
         exists col', out !! name = Some col'
           /\ Forall (fun c => Forall is_Some (values c)) (chunks col').
Proof.
  intros Hnd Hall.
  destruct (Step2_fillna_Ok estimate cont_names gddf_read Hnd Hall)
    as (out & Hout & Hfill & _).
  exists out. split; [exact Hout|]. intros name Hin.
  destruct (proj1 (Forall_forall _ _) Hall name Hin) as (col & Hcol & _).
  destruct (Hfill name col Hin Hcol) as (a & _ & Ho).
  exists (fillna col (Some a)). split; [exact Ho | apply fillna_full].
Qed.

(** Filling a column that has no missing value changes nothing. *)
Lemma fillna_id (col : DaskSeries) (v : scalar) :
  Forall (fun c => Forall is_Some (values c)) (chunks col) ->
  fillna col v = col.
Proof.
  destruct col as [d cs]. unfold fillna. cbn [meta chunks]. intros Hfull. f_equal.
  induction Hfull as [|c cs Hc _ IH]; [done|].
  rewrite fmap_cons, IH. f_equal.
  destruct c as [dc xs]. unfold series_map. cbn [dtype_of values] in *. f_equal.
  induction Hc as [|x xs [a ->] _ IHx]; [done|].
  by rewrite fmap_cons, IHx.
Qed.

Lemma omap_fill_cell (a : R) (xs : list (option R)) :
  omap (fun x => x) (fill_cell (Some a) <$> xs) = (fun x => default a x) <$> xs.
Proof. induction xs as [|[x|] xs IH]; cbn; by rewrite ?IH. Qed.

Lemma present_fillna (col : DaskSeries) (a : R) :
  present col ≠ [] -> present (fillna col (Some a)) ≠ [].
Proof.
  unfold present, fillna. cbn [chunks]. rewrite <- list_fmap_compose.
  induction (chunks col) as [|c cs IH]; [done|].
  rewrite !fmap_cons. cbn [concat]. rewrite !omap_app. cbn [compose series_map values].
  rewrite omap_fill_cell.
  destruct (values c) as [|x xs]; [exact IH | done].
Qed.

(** X6.  Step #2 is idempotent: when it completes, run again on its own
    output it completes and returns that output unchanged, whatever
    [quantile(0.5)] estimates for the filled columns. *)
Theorem Step2_fillna_idempotent (estimate : DaskSeries -> R)
    (cont_names : list string) (gddf_read : DaskDataFrame) :
  NoDup cont_names ->
  Forall (fun n => exists c, gddf_read !! n = Some c /\ present c ≠ []) cont_names ->
  exists out,
    Step2_fillna estimate cont_names gddf_read = Ok out
    /\ Step2_fillna estimate cont_names out = Ok out.
Proof.
  intros Hnd Hall.
  destruct (Step2_fillna_Ok estimate cont_names gddf_read Hnd Hall)
    as (out & Hout & Hfill & Hother).
  exists out. split; [exact Hout|].
  assert (Hcols : forall n, n ∈ cont_names ->
            exists c a, gddf_read !! n = Some c
              /\ present c ≠ []
              /\ out !! n = Some (fillna c (Some a))).
  { intros n Hn. destruct (proj1 (Forall_forall _ _) Hall n Hn) as (c & Hc & Hp).
    destruct (Hfill n c Hn Hc) as (a & _ & Ho). eauto 10. }
  assert (Hall2 : Forall (fun n => exists c, out !! n = Some c /\ present c ≠ [])
                    cont_names).
  { apply Forall_forall. intros n Hn.
    destruct (Hcols n Hn) as (c & a & Hc & Hp & Ho).
    exists (fillna c (Some a)). split; [exact Ho|]. by apply present_fillna. }
  destruct (Step2_fillna_Ok estimate cont_names out Hnd Hall2)
    as (out2 & Hout2 & Hfill2 & Hother2).
  rewrite Hout2. f_equal. apply map_eq. intros n.
  destruct (decide (n ∈ cont_names)) as [Hn|Hn]; [|by apply Hother2].
  destruct (Hcols n Hn) as (c & a & Hc & Hp & Ho).
  destruct (Hfill2 n _ Hn Ho) as (a2 & _ & Ho2).
  rewrite Ho2, Ho. f_equal. apply fillna_id, fillna_full.
Qed.

(** X7.  An int64 or int32 column whose values are whole numbers holds
    only whole numbers after Step #2, and none is missing: the fill value is
    [int(median)], whatever [quantile(0.5)] estimates. *)
Theorem Step2_fillna_keeps_integers (estimate : DaskSeries -> R)
    (cont_names : list string) (gddf_read : DaskDataFrame) (name : string)
    (col : DaskSeries) :
  NoDup cont_names ->
  Forall (fun n => exists c, gddf_read !! n = Some c /\ present c ≠ []) cont_names ->
  name ∈ cont_names ->
  gddf_read !! name = Some col ->
  is_float (meta col) = false ->
  Forall (fun c => Forall (fun x => forall a, x = Some a -> exists z, a = IZR z)
                     (values c)) (chunks col) ->
  exists out col',
    Step2_fillna estimate cont_names gddf_read = Ok out
    /\ out !! name = Some col'
    /\ Forall (fun c => Forall (fun x => exists z, x = Some (IZR z)) (values c))
         (chunks col').
Proof.
  intros Hnd Hall Hin Hcol Hint Hz.
  destruct (Step2_fillna_Ok estimate cont_names gddf_read Hnd Hall)
    as (out & Hout & Hfill & _).
  destruct (Hfill name col Hin Hcol) as (v & Hv & Ho).
  destruct (proj1 (Forall_forall _ _) Hall name Hin) as (c & Hc & Hp).
  assert (c = col) by congruence. subst c.
  rewrite (fill_value_int estimate col Hint Hp) in Hv. injection Hv as <-.
  exists out, (fillna col (Some (IZR (int_of_float (estimate col))))).
  split; [exact Hout|]. split; [exact Ho|].
  unfold fillna. cbn [chunks]. apply Forall_fmap.
  eapply Forall_impl; [exact Hz|]. intros ch Hch. cbn.
  apply Forall_fmap. eapply Forall_impl; [exact Hch|].
  intros [a|] Ha; cbn; [|eauto]. destruct (Ha a eq_refl) as [z ->]. eauto.
Qed.


(** *** The statistics of a normalized column *)

Lemma concat_fmap_fmap {A B : Type} (f : A -> B) (ls : list (list A)) :
  concat ((fun l : list A => f <$> l) <$> ls) = f <$> concat ls.
Proof.
  induction ls as [|l ls IH]; [done|].
  rewrite fmap_cons. cbn [concat]. by rewrite fmap_app, IH.
Qed.

Lemma chunk_moments_count (xs : list (option R)) :
  count (chunk_moments xs) = length (omap (fun x => x) xs).
Proof.
  unfold chunk_moments. induction xs as [|[a|] xs IH]; cbn; [done | by rewrite <- IH | done].
Qed.

Lemma reduce_moments_count (col : DaskSeries) :
  count (reduce_moments col) = length (present col).
Proof. rewrite reduce_moments_concat. apply chunk_moments_count. Qed.

Lemma chunk_moments_normalize (m s : R) (xs : list (option R)) :
  (s + eps <> 0)%R ->
  chunk_moments (normalize_cell m s <$> xs)
  = mkMoments (count (chunk_moments xs))
      ((total (chunk_moments xs) - INR (count (chunk_moments xs)) * m) / (s + eps))
      ((total_sq (chunk_moments xs) - 2 * m * total (chunk_moments xs)
        + INR (count (chunk_moments xs)) * m * m) / ((s + eps) * (s + eps))).
Proof.
  intros Hd. unfold chunk_moments. induction xs as [|[a|] xs IH].
  - apply moments_eq; cbn; [done | field; done | field; done].
  - rewrite fmap_cons. cbn [foldr normalize_cell moments_of_cell]. rewrite IH.
    apply moments_eq; cbn [count total total_sq combine]; [done | |];
      change (1 + ?n) with (S n); rewrite S_INR; unfold normalize; field; done.
  - rewrite fmap_cons. cbn [foldr normalize_cell moments_of_cell]. rewrite IH.
    apply moments_eq; cbn [count total total_sq combine moments_zero Nat.add];
      [done | lra | lra].
Qed.

Lemma normalized_values (col : DaskSeries) (m s : R) :
  (0 <= s)%R ->
  concat (values <$> chunks (normalized col (Some m) (Some s)))
  = normalize_cell m s <$> concat (values <$> chunks col).
Proof.
  intros Hs. rewrite normalized_chunks by done.
  rewrite <- list_fmap_compose, <- concat_fmap_fmap, <- list_fmap_compose. done.
Qed.

Lemma mean_agg_Some (M : moments) (m : R) :
  mean_agg M = Some m -> count M <> 0 /\ m = (total M / INR (count M))%R.
Proof. unfold mean_agg. case_decide; [done|]. by intros [= <-]. Qed.

Lemma var_aggs_Some (M : moments) (v : R) :
  var_aggs 1 M = Some v ->
  1 < count M
  /\ v = ((total_sq M / INR (count M)
           - (total M / INR (count M)) * (total M / INR (count M)))
          * INR (count M) / INR (count M - 1))%R.
Proof. unfold var_aggs. case_decide; [done|]. intros [= <-]. split; [lia | done]. Qed.

(** X8.  A column normalized by Step #3 with mean [m] and standard
    deviation [s] has mean 0 and standard deviation [s / (s + 1e-7)]
    afterwards (in real arithmetic). *)
Theorem normalized_mean_and_std (cont_names : list string) (gddf_read : DaskDataFrame)
    (name : string) (col : DaskSeries) (m s : R) :
  NoDup cont_names ->
  Forall (fun n => is_Some (gddf_read !! n)) cont_names ->
  name ∈ cont_names ->
  gddf_read !! name = Some col ->
  mean col = Some m ->
  std col = Some s ->
  exists out col',
    Step3_normalize cont_names gddf_read = Ok out
    /\ out !! name = Some col'
    /\ mean col' = Some 0%R
    /\ std col' = Some (s / (s + eps))%R.
Proof.
  intros Hnd Hall Hin Hcol Hm Hs.
  destruct (Step3_normalize_Ok cont_names gddf_read Hnd Hall) as (out & Hout & Hnorm & _).
  pose proof (std_nonneg col s Hs) as Hpos. pose proof eps_pos as Heps.
  exists out, (normalized col (Some m) (Some s)).
  split; [exact Hout|]. split.
  { rewrite (Hnorm name col Hin Hcol). by rewrite Hm, Hs. }
  assert (Hd : (s + eps <> 0)%R) by lra.
  assert (HM : reduce_moments (normalized col (Some m) (Some s))
               = mkMoments (count (reduce_moments col))
                   ((total (reduce_moments col) - INR (count (reduce_moments col)) * m)
                    / (s + eps))
                   ((total_sq (reduce_moments col) - 2 * m * total (reduce_moments col)
                     + INR (count (reduce_moments col)) * m * m)
                    / ((s + eps) * (s + eps)))).
  { rewrite (reduce_moments_concat (normalized _ _ _)), normalized_values by done.
    rewrite chunk_moments_normalize by done. by rewrite <- reduce_moments_concat. }
  unfold mean in Hm. apply mean_agg_Some in Hm as [Hn0 Hmv].
  unfold std, var in Hs.
  destruct (var_aggs 1 (reduce_moments col)) as [v|] eqn:Hv; [|done].
  cbn in Hs. injection Hs as Hsv.
  apply var_aggs_Some in Hv as [Hn1 Hvv].
  set (M := reduce_moments col) in *.
  assert (HnR : (INR (count M) <> 0)%R) by (apply not_0_INR; lia).
  assert (Hn1R : (INR (count M - 1) = INR (count M) - 1)%R).
  { rewrite minus_INR by lia. done. }
  assert (Hn1R' : (INR (count M) - 1 <> 0)%R).
  { rewrite <- Hn1R. apply not_0_INR. lia. }
  split.
  - unfold mean, mean_agg. rewrite HM. cbn [count total].
    rewrite decide_False by done. f_equal. rewrite Hmv. field. done.
  - unfold std, var, var_aggs. rewrite HM. cbn [count total total_sq].
    rewrite decide_False by lia. cbn [fmap option_fmap option_map]. f_equal.
    assert (Hsq : sqrt ((s + eps) * (s + eps)) = (s + eps)%R)
      by (apply sqrt_square; lra).
    transitivity (sqrt (v / ((s + eps) * (s + eps)))).
    { f_equal. rewrite Hvv, Hn1R, Hmv. field. repeat split; done. }
    rewrite sqrt_div_alt by nra. by rewrite Hsq, Hsv.
Qed.


(** *** Edge cases of the normalization *)



Lemma std_None (col : DaskSeries) :
  length (present col) <= 1 -> std col = None.
Proof.
  intros Hn. unfold std, var, var_aggs. rewrite reduce_moments_count.
  by rewrite decide_True by lia.
Qed.

(** X9.  A column with at most one value has no standard deviation
    ([ddof = 1] gives NaN), and Step #3 turns the whole column into missing
    values. *)
Theorem normalize_too_few_values (cont_names : list string) (gddf_read : DaskDataFrame)
    (name : string) (col : DaskSeries) :
  NoDup cont_names ->
  Forall (fun n => is_Some (gddf_read !! n)) cont_names ->
  name ∈ cont_names ->
  gddf_read !! name = Some col ->
  length (present col) <= 1 ->
  exists out col',
    Step3_normalize cont_names gddf_read = Ok out
    /\ out !! name = Some col'
    /\ Forall (fun c => Forall (fun x => x = None) (values c)) (chunks col').
Proof.
  intros Hnd Hall Hin Hcol Hfew.
  destruct (Step3_normalize_Ok cont_names gddf_read Hnd Hall) as (out & Hout & Hnorm & _).
  exists out, (normalized col (mean col) None).
  split; [exact Hout|]. split.
  { rewrite (Hnorm name col Hin Hcol). by rewrite (std_None col Hfew). }
  unfold normalized, astype, div_scalar, sub_scalar, dask_map. cbn [chunks].
  rewrite <- !list_fmap_compose. apply Forall_fmap, Forall_forall. intros c _.
  cbn. rewrite <- !list_fmap_compose. apply Forall_fmap, Forall_forall.
  intros x _. cbn. by destruct (sub_cell x (mean col)).
Qed.

Lemma chunk_moments_constant (a : R) (xs : list (option R)) :
  Forall (fun x => x = None \/ x = Some a) xs ->
  chunk_moments xs
  = mkMoments (length (omap (fun x => x) xs))
      (INR (length (omap (fun x => x) xs)) * a)
      (INR (length (omap (fun x => x) xs)) * a * a).
Proof.
  unfold chunk_moments. induction 1 as [|x xs [->| ->] _ IH]; cbn [foldr].
  - apply moments_eq; cbn; [done | lra | lra].
  - rewrite IH. apply moments_eq; cbn [count total total_sq combine moments_of_cell
      moments_zero Nat.add omap list_omap]; [done | lra | lra].
  - rewrite IH. cbn [omap list_omap length].
    apply moments_eq; cbn [count total total_sq combine moments_of_cell];
      [done | |]; rewrite S_INR; lra.
Qed.

(** X10.  In real arithmetic, a column whose values are all the same
    number, at least two of them, has standard deviation 0; thanks to the
    1e-7 in the divisor Step #3 does not divide by zero, and it maps every
    value to 0. *)
Theorem normalize_constant_column (cont_names : list string) (gddf_read : DaskDataFrame)
    (name : string) (col : DaskSeries) (a : R) :
  NoDup cont_names ->
  Forall (fun n => is_Some (gddf_read !! n)) cont_names ->
  name ∈ cont_names ->
  gddf_read !! name = Some col ->
  Forall (fun c => Forall (fun x => x = None \/ x = Some a) (values c)) (chunks col) ->
  1 < length (present col) ->
  exists out col',
    Step3_normalize cont_names gddf_read = Ok out
    /\ out !! name = Some col'
    /\ mean col = Some a
    /\ std col = Some 0%R
    /\ Forall2 (fun c c' =>
         values c' = (fun x => match x with
                               | Some _ => Some 0%R
                               | None => None
                               end) <$> values c)
         (chunks col) (chunks col').
Proof.
  intros Hnd Hall Hin Hcol Hconst Hn.
  destruct (Step3_normalize_Ok cont_names gddf_read Hnd Hall) as (out & Hout & Hnorm & _).
  pose proof eps_pos as Heps.
  assert (HM : reduce_moments col
               = mkMoments (length (present col)) (INR (length (present col)) * a)
                   (INR (length (present col)) * a * a)).
  { rewrite reduce_moments_concat. apply chunk_moments_constant.
    apply Forall_concat, Forall_fmap. exact Hconst. }
  assert (HnR : (INR (length (present col)) <> 0)%R) by (apply not_0_INR; lia).
  assert (Hn1R : (INR (length (present col) - 1) <> 0)%R) by (apply not_0_INR; lia).
  assert (Hm : mean col = Some a).
  { unfold mean, mean_agg. rewrite HM. cbn [count total].
    rewrite decide_False by lia. f_equal. field. done. }
  assert (Hs : std col = Some 0%R).
  { unfold std, var, var_aggs. rewrite HM. cbn [count total total_sq].
    rewrite decide_False by lia. cbn [fmap option_fmap option_map]. f_equal.
    rewrite <- sqrt_0. f_equal. field. split; done. }
  exists out, (normalized col (Some a) (Some 0%R)).
  split; [exact Hout|]. split.
  { rewrite (Hnorm name col Hin Hcol). by rewrite Hm, Hs. }
  split; [exact Hm|]. split; [exact Hs|].
  rewrite normalized_chunks by lra.
  apply Forall2_fmap_r, Forall_Forall2_diag.
  eapply Forall_impl; [exact Hconst|]. intros c Hc. cbn.
  apply Forall_fmap_ext_1. eapply Forall_impl; [exact Hc|].
  intros x [-> | ->]; cbn; [done|]. unfold normalize. f_equal. field. lra.
Qed.


(** *** Step #2 followed by Step #3 *)




(** ** More on the shuffle *)

Lemma StronglySorted_lookup_le (l : list nat) :
  StronglySorted le l ->
  forall i j a b, i <= j -> l !! i = Some a -> l !! j = Some b -> a <= b.
Proof.
  induction 1 as [|x l Hl IH Hall]; intros i j a b Hij Hi Hj.
  - by rewrite lookup_nil in Hi.
  - destruct i as [|i], j as [|j]; cbn in Hi, Hj.
    + assert (a = b) by congruence. lia.
    + injection Hi as <-. apply (proj1 (Forall_forall _ _) Hall).
      by eapply list_elem_of_lookup_2.
    + lia.
    + apply (IH i j); [lia | done | done].
Qed.

Lemma elem_of_concat {A : Type} (x : A) (ls : list (list A)) :
  x ∈ concat ls <-> exists l, x ∈ l /\ l ∈ ls.
Proof.
  induction ls as [|l ls IH]; cbn.
  - split; [by intros ?%elem_of_nil | by intros (l & _ & ?%elem_of_nil)].
  - rewrite elem_of_app, IH. split.
    + intros [Hx | (l' & Hx & Hl')]; [exists l | exists l']; split; try done.
      * by left.
      * by right.
    + intros (l' & Hx & Hl'). apply elem_of_cons in Hl' as [-> | Hl']; [by left|].
      right. eauto.
Qed.

Lemma partition_quantiles_lookup (keys : list nat) (n i : nat) :
  i <= n ->
  partition_quantiles keys n !! i
  = Some (default 0 (merge_sort le keys !! (i * (length (merge_sort le keys) - 1) / n))).
Proof.
  intros Hi. unfold partition_quantiles. rewrite list_lookup_fmap.
  rewrite (proj2 (lookup_seq 0 (S n) i i)) by (split; lia). done.
Qed.

Lemma partition_quantiles_mono (keys : list nat) (n i j a b : nat) :
  i <= j -> j <= n ->
  partition_quantiles keys n !! i = Some a ->
  partition_quantiles keys n !! j = Some b ->
  a <= b.
Proof.
  intros Hij Hjn. rewrite !partition_quantiles_lookup by lia.
  intros [= <-] [= <-].
  set (sorted := merge_sort le keys).
  assert (Hsorted : StronglySorted le sorted)     by (apply StronglySorted_merge_sort; apply _).
  destruct (decide (length sorted = 0)) as [Hz|Hz].
  { destruct sorted; [done | cbn in Hz; lia]. }
  destruct (decide (i = j)) as [->|Hne]; [done|].
  assert (Hn : n <> 0) by lia.
  assert (Hidx : forall k, k <= n -> k * (length sorted - 1) / n < length sorted).
  { intros k Hk. apply Nat.lt_le_trans with (S (length sorted - 1)); [|lia].
    apply Nat.lt_succ_r. apply Nat.Div0.div_le_upper_bound. nia. }
  destruct (lookup_lt_is_Some_2 sorted _ (Hidx i ltac:(lia))) as [x Hx].
  destruct (lookup_lt_is_Some_2 sorted _ (Hidx j Hjn)) as [y Hy].
  rewrite Hx, Hy. cbn.
  eapply (StronglySorted_lookup_le sorted Hsorted); [|exact Hx|exact Hy].
  apply Nat.Div0.div_le_mono. nia.
Qed.

Lemma searchsorted_right_spec (divs : list nat) (s : nat) :
  (forall i d, i < searchsorted_right divs s -> divs !! i = Some d -> d <= s)
  /\ (forall d, divs !! searchsorted_right divs s = Some d -> s < d).
Proof.
  induction divs as [|d0 divs [IH1 IH2]]; cbn.
  - split; [lia | done].
  - destruct (decide (d0 ≤ s)) as [Hd|Hd].
    + split.
      * intros [|i] d Hi Hl; cbn in Hl; [congruence|]. apply (IH1 i); [lia | done].
      * intros d Hl. cbn in Hl. by apply IH2.
    + split; [lia|]. intros d [= <-]. lia.
Qed.

(** Where [set_partitions_pre] sends an index value, between which
    divisions it lies. *)
Lemma set_partitions_pre_bounds (divs : list nat) (s j : nat) :
  (forall i1 i2 a b, i1 <= i2 -> i2 < length divs ->
     divs !! i1 = Some a -> divs !! i2 = Some b -> a <= b) ->
  set_partitions_pre divs s = Z.of_nat j ->
  (forall d, divs !! j = Some d -> d <= s)
  /\ (j + 2 < length divs -> forall d, divs !! (j + 1) = Some d -> s < d).
Proof.
  intros Hmono. unfold set_partitions_pre.
  destruct (searchsorted_right_spec divs s) as [Hlow Hup].
  destruct (decide (default 0 (last divs) ≤ s)) as [Hlast|Hlast]; intros Hj.
  - split; [|lia]. intros d Hd.
    assert (Hlen : length divs = j + 2) by lia.
    destruct (last divs) as [dl|] eqn:Hl.
    + cbn in Hlast. rewrite last_lookup in Hl.
      apply Nat.le_trans with dl; [|done].
      apply (Hmono j (pred (length divs)) d dl); [lia | lia | done | done].
    + apply last_None in Hl. rewrite Hl in Hlen. cbn in Hlen. lia.
  - assert (Hk : searchsorted_right divs s = j + 1) by lia. split.
    + intros d Hd. apply (Hlow j); [lia | done].
    + intros _ d Hd. apply Hup. by rewrite Hk.
Qed.

#[local] Instance key_le_total {Row : Type} : Total (@key_le Row).
Proof. intros a b. unfold key_le. lia. Qed.

#[local] Instance key_le_trans {Row : Type} : Transitive (@key_le Row).
Proof. intros a b c. unfold key_le. lia. Qed.

Section SortedShuffle.
Context {Row : Type}.

Lemma elem_of_bucket (divs : list nat) (l : list (Row * nat)) (j : nat) (r : Row * nat) :
  r ∈ merge_sort key_le
        (filter (fun r => set_partitions_pre divs r.2 = Z.of_nat j) l)
  <-> set_partitions_pre divs r.2 = Z.of_nat j /\ r ∈ l.
Proof. by rewrite merge_sort_Permutation, list_elem_of_filter. Qed.

Lemma set_partition_sorted (divs : list nat) (parts : list (list (Row * nat))) :
  (forall i1 i2 a b, i1 <= i2 -> i2 < length divs ->
     divs !! i1 = Some a -> divs !! i2 = Some b -> a <= b) ->
  StronglySorted key_le (concat (set_partition divs parts)).
Proof.
  intros Hmono. unfold set_partition.
  set (F := fun j => merge_sort key_le
              (filter (fun r : Row * nat => set_partitions_pre divs r.2 = Z.of_nat j)
                 (concat parts))).
  assert (Hgen : forall m, m <= length divs - 1 ->
            StronglySorted key_le (concat (F <$> seq 0 m))).
  { induction m as [|m IH]; intros Hm; [constructor|].
    rewrite seq_S, fmap_app, concat_app. cbn [fmap list_fmap concat].
    rewrite app_nil_r. apply StronglySorted_app_2.
    - intros r1 r2 Hr1 Hr2.
      apply elem_of_concat in Hr1 as (b1 & Hr1 & Hb1).
      apply list_elem_of_fmap in Hb1 as (j1 & -> & Hj1).
      apply elem_of_seq in Hj1 as [_ Hj1]. cbn in Hj1.
      apply elem_of_bucket in Hr1 as [Hp1 _]. apply elem_of_bucket in Hr2 as [Hp2 _].
      destruct (set_partitions_pre_bounds divs r1.2 j1 Hmono Hp1) as [_ Hup].
      destruct (set_partitions_pre_bounds divs r2.2 m Hmono Hp2) as [Hlow _].
      destruct (lookup_lt_is_Some_2 divs (j1 + 1)) as [d1 Hd1]; [lia|].
      destruct (lookup_lt_is_Some_2 divs m) as [d2 Hd2]; [lia|].
      specialize (Hup ltac:(lia) d1 Hd1). specialize (Hlow d2 Hd2).
      pose proof (Hmono (j1 + 1) m d1 d2 ltac:(lia) ltac:(lia) Hd1 Hd2).
      unfold key_le. lia.
    - apply IH. lia.
    - apply StronglySorted_merge_sort; apply _. }
  by apply Hgen.
Qed.

(** X12.  Whatever is drawn, the shuffled dataframe is sorted by
    [sort_ind]: each partition is sorted, and so are the partitions read one
    after the other. *)
Theorem shuffled_is_sorted_by_sort_ind (gddf_read : list (list Row))
    (npartitions : option nat) (st st' : RandomState) :
  let gddf_read_shuffled := (set_index (gddf_read_new gddf_read) npartitions st).1 in
  let out := (compute gddf_read_shuffled st').1 in
  StronglySorted key_le (concat out)
  /\ Forall (StronglySorted key_le) out.
Proof.
  unfold set_index, compute.
  destruct (gddf_read_new gddf_read st) as [parts st1]. cbn [fst graph].
  destruct (gddf_read_new gddf_read st') as [parts' st2]. cbn [fst].
  set (n := default (length parts) npartitions).
  set (divs := partition_quantiles (concat parts).*2 n).
  split.
  - apply set_partition_sorted. intros i1 i2 a b H12 H2.
    unfold divs in *. rewrite partition_quantiles_length in H2.
    apply partition_quantiles_mono; lia.
  - unfold set_partition. apply Forall_fmap, Forall_forall. intros j _. cbn.
    apply StronglySorted_merge_sort; apply _.
Qed.
End SortedShuffle.


Section DivisionsAndRoundTrip.
Context {Row : Type}.

(** The index values of a draw are, up to order, the row numbers of every
    partition. *)
Lemma tags_Permutation (parts : list (list Row)) (tagged : list (list (Row * nat))) :
  Forall2 (fun df t => t.*1 = df /\ t.*2 ≡ₚ seq 0 (length df)) parts tagged ->
  (concat tagged).*2 ≡ₚ concat ((fun df => seq 0 (length df)) <$> parts).
Proof.
  induction 1 as [|df t parts tagged [_ Hperm] _ IH]; [done|].
  rewrite fmap_cons. cbn [concat]. by rewrite fmap_app, Hperm, IH.
Qed.

Lemma merge_sort_le_Permutation (l1 l2 : list nat) :
  l1 ≡ₚ l2 -> merge_sort le l1 = merge_sort le l2.
Proof.
  intros Hp. apply (Sorted_unique le).
  - apply Sorted_merge_sort, _.
  - apply Sorted_merge_sort, _.
  - by rewrite !merge_sort_Permutation.
Qed.

Lemma partition_quantiles_Permutation (l1 l2 : list nat) (n : nat) :
  l1 ≡ₚ l2 -> partition_quantiles l1 n = partition_quantiles l2 n.
Proof.
  intros Hp. unfold partition_quantiles. by rewrite (merge_sort_le_Permutation l1 l2 Hp).
Qed.

(** The divisions of [set_index] are the quantiles of the row numbers. *)
Lemma set_index_divisions (gddf_read : list (list Row)) (npartitions : option nat)
    (st : RandomState) :
  divisions (set_index (gddf_read_new gddf_read) npartitions st).1
  = partition_quantiles (concat ((fun df => seq 0 (length df)) <$> gddf_read))
      (default (length gddf_read) npartitions).
Proof.
  unfold set_index.
  pose proof (map_partitions_assign_rand gddf_read st) as Hd.
  destruct (gddf_read_new gddf_read st) as [parts st1]. cbn [fst divisions] in *.
  rewrite (Forall2_length _ _ _ Hd).
  apply partition_quantiles_Permutation. by apply tags_Permutation.
Qed.

(** X13.  The divisions that [set_index] computes do not depend on what
    the generator draws: every draw tags the rows of a partition with the
    same numbers, in another order, so the divisions found with one draw fit
    the rows tagged by another. *)
Theorem divisions_do_not_depend_on_the_draw (gddf_read : list (list Row))
    (npartitions : option nat) (st st' : RandomState) :
  divisions (set_index (gddf_read_new gddf_read) npartitions st).1
  = divisions (set_index (gddf_read_new gddf_read) npartitions st').1.
Proof. by rewrite !set_index_divisions. Qed.

Lemma elem_of_row_numbers (parts : list (list Row)) (v : nat) :
  v ∈ concat ((fun df => seq 0 (length df)) <$> parts)
  <-> exists df, df ∈ parts /\ v < length df.
Proof.
  rewrite elem_of_concat. split.
  - intros (l & Hv & Hl). apply list_elem_of_fmap in Hl as (df & -> & Hdf).
    apply elem_of_seq in Hv. exists df. split; [done | lia].
  - intros (df & Hdf & Hv). exists (seq 0 (length df)). split.
    + apply elem_of_seq. lia.
    + by apply (list_elem_of_fmap_2 (fun df : list Row => seq 0 (length df))).
Qed.

Lemma partition_quantiles_last (keys : list nat) (n : nat) :
  n <> 0 ->
  last (partition_quantiles keys n) = Some (default 0 (last (merge_sort le keys))).
Proof.
  intros Hn. unfold partition_quantiles.
  rewrite seq_S, fmap_app. cbn [fmap list_fmap]. rewrite last_snoc. cbn [Nat.add].
  f_equal.
  rewrite (Nat.mul_comm n), Nat.div_mul by lia.
  by rewrite last_lookup, Nat.sub_1_r.
Qed.

Lemma sorted_last_max (keys : list nat) (d : nat) :
  last (merge_sort le keys) = Some d ->
  d ∈ keys /\ forall k, k ∈ keys -> k <= d.
Proof.
  intros Hl.
  pose proof (merge_sort_Permutation le keys) as Hperm.
  assert (Hsorted : StronglySorted le (merge_sort le keys))
    by (apply StronglySorted_merge_sort; apply _).
  apply last_Some in Hl as [l' Hl']. rewrite Hl' in Hperm, Hsorted. split.
  - rewrite <- Hperm. apply elem_of_app. right. by apply list_elem_of_singleton.
  - intros k Hk. rewrite <- Hperm in Hk. apply elem_of_app in Hk as [Hk|Hk].
    + apply (StronglySorted_app_1_elem_of le l' [d] k d Hsorted Hk).
      by apply list_elem_of_singleton.
    + apply list_elem_of_singleton in Hk. lia.
Qed.

(** X14.  For a dataframe with at least one row, as the notebook displays:
    [gddf_read_shuffled.divisions[0]] is 0 and
    [gddf_read_shuffled.npartitions] is the number of partitions of the
    input; the last division is the size of the largest partition minus
    one. *)
Theorem shuffled_divisions (gddf_read : list (list Row)) (st : RandomState) :
  concat gddf_read ≠ [] ->
  let gddf_read_shuffled := (set_index (gddf_read_new gddf_read) None st).1 in
  divisions gddf_read_shuffled !! 0 = Some 0
  /\ npartitions gddf_read_shuffled = length gddf_read
  /\ exists d,
       last (divisions gddf_read_shuffled) = Some d
       /\ (exists df, df ∈ gddf_read /\ length df = S d)
       /\ (forall df, df ∈ gddf_read -> length df <= S d).
Proof.
  intros Hrows gddf_read_shuffled.
  pose proof (set_index_divisions gddf_read None st) as Hdiv.
  fold gddf_read_shuffled in Hdiv. cbn [default] in Hdiv.
  set (keys := concat ((fun df => seq 0 (length df)) <$> gddf_read)) in *.
  assert (Hparts : length gddf_read <> 0).
  { destruct gddf_read; [done | cbn; lia]. }
  assert (Hzero : 0 ∈ keys).
  { apply elem_of_row_numbers.
    assert (Hex : exists df, df ∈ gddf_read /\ df ≠ []).
    { clear -Hrows. induction gddf_read as [|df l IH]; [done|].
      destruct df as [|r df].
      - destruct IH as (df' & ? & ?); [done|]. exists df'. split; [by right | done].
      - exists (r :: df). split; [by left | done]. }
    destruct Hex as (df & Hdf & Hne). exists df. split; [done|].
    destruct df; [done | cbn; lia]. }
  split; [|split].
  - rewrite Hdiv, <- head_lookup, partition_quantiles_head. f_equal.
    apply sorted_head_zero. by right.
  - unfold npartitions. rewrite Hdiv, partition_quantiles_length. lia.
  - rewrite Hdiv, partition_quantiles_last by done.
    destruct (last (merge_sort le keys)) as [d|] eqn:Hl.
    + exists d. split; [done|].
      destruct (sorted_last_max keys d Hl) as [Hd Hmax].
      apply elem_of_row_numbers in Hd as (df & Hdf & Hlt). split.
      * exists df. split; [done|].
        destruct (decide (length df = S d)) as [|Hne]; [done|].
        assert (Hin : S d ∈ keys) by (apply elem_of_row_numbers; exists df; split; [done|lia]).
        apply Hmax in Hin. lia.
      * intros df' Hdf'. destruct (decide (length df' <= S d)) as [|Hgt]; [done|].
        assert (Hin : S d ∈ keys) by (apply elem_of_row_numbers; exists df'; split; [done|lia]).
        apply Hmax in Hin. lia.
    + apply last_None in Hl.
      pose proof (merge_sort_Permutation le keys) as Hperm. rewrite Hl in Hperm.
      apply Permutation_nil_l in Hperm. rewrite <- Hperm in Hzero.
      by apply elem_of_nil in Hzero.
Qed.


End DivisionsAndRoundTrip.


(** ** More on the directories *)

Section CleanProofs.
Context {Row : Type}.
Implicit Types (f : FileSystem Row).

Lemma clean_lookup p f :
  exists f', clean p f = Ok f'
    /\ forall q, f' !! q
         = if isdir p f
           then (if decide (q = p) then Some []
                 else if under p q then None else f !! q)
           else f !! q.
Proof.
  unfold clean. destruct (isdir p f) eqn:Hdir.
  - destruct (rmtree_Ok p f Hdir) as (f1 & -> & Hp & Hunder & Hother). cbn.
    unfold mkdir. rewrite (proj2 (isdir_false p f1) Hp).
    eexists. split; [reflexivity|]. intros q.
    destruct (decide (q = p)) as [->|Hne]; [apply lookup_insert_eq|].
    rewrite lookup_insert_ne by done.
    destruct (under p q) eqn:Hq; [by apply Hunder | by apply Hother].
  - by exists f.
Qed.

(** A directory that is empty, with nothing below it, is left as it is. *)
Lemma clean_fixed p f :
  (isdir p f = true ->
   f !! p = Some [] /\ forall q, under p q = true -> q ≠ p -> f !! q = None) ->
  clean p f = Ok f.
Proof.
  intros Hfix. destruct (clean_lookup p f) as (f' & Hc & Hl). rewrite Hc. f_equal.
  apply map_eq. intros q. rewrite Hl.
  destruct (isdir p f) eqn:Hdir; [|done].
  destruct (Hfix eq_refl) as [Hp Hbelow].
  destruct (decide (q = p)) as [->|Hne]; [done|].
  destruct (under p q) eqn:Hq; [|done]. symmetry. by apply Hbelow.
Qed.

Lemma isdir_ext p f f' : f' !! p = f !! p -> isdir p f' = isdir p f.
Proof. unfold isdir. by intros ->. Qed.

Lemma clean_isdir p f f' : clean p f = Ok f' -> isdir p f' = isdir p f.
Proof.
  intros Hc. destruct (clean_lookup p f) as (f2 & Hc2 & Hl).
  assert (f2 = f') by congruence. subst f2.
  destruct (isdir p f) eqn:Hdir.
  - apply isdir_true. rewrite Hl, decide_True by done. eauto.
  - rewrite <- Hdir. apply isdir_ext. by rewrite Hl.
Qed.

(** X16.  The cell that cleans the working directories never raises and
    running it twice gives what running it once gives.  Everything that lay
    below a directory that existed is gone, and no path outside the two
    directories is touched. *)
Theorem clean_directories_effect f :
  exists f',
    clean_directories f = Ok f'
    /\ clean_directories f' = Ok f'
    /\ (isdir dask_workdir f = true ->
        forall q, under dask_workdir q = true -> q ≠ dask_workdir -> f' !! q = None)
    /\ (isdir demo_output_path f = true ->
        forall q, under demo_output_path q = true -> q ≠ demo_output_path ->
                  f' !! q = None)
    /\ (forall q, under dask_workdir q = false -> under demo_output_path q = false ->
                  f' !! q = f !! q).
Proof.
  unfold clean_directories.
  destruct (clean_lookup dask_workdir f) as (f1 & Hc1 & Hl1).
  destruct (clean_lookup demo_output_path f1) as (f' & Hc2 & Hl2).
  rewrite Hc1. cbn. rewrite Hc2. exists f'. split; [reflexivity|].
  assert (Hwd : under demo_output_path dask_workdir = false) by reflexivity.
  assert (Hdw : under dask_workdir demo_output_path = false) by reflexivity.
  assert (Hne : dask_workdir ≠ demo_output_path) by discriminate.
  assert (Hf1d : f1 !! demo_output_path = f !! demo_output_path).
  { rewrite Hl1. destruct (isdir dask_workdir f); [|done].
    rewrite decide_False by done. by rewrite Hdw. }
  assert (Hwork : f' !! dask_workdir = f1 !! dask_workdir).
  { rewrite Hl2. destruct (isdir demo_output_path f1); [|done].
    rewrite decide_False by done. by rewrite Hwd. }
  assert (Hdir_d1 : isdir demo_output_path f1 = isdir demo_output_path f)
    by (by apply isdir_ext).
  assert (Hdir_d' : isdir demo_output_path f' = isdir demo_output_path f).
  { rewrite (clean_isdir _ _ _ Hc2). exact Hdir_d1. }
  assert (Hdir_w' : isdir dask_workdir f' = isdir dask_workdir f).
  { rewrite (isdir_ext _ _ _ Hwork). by apply clean_isdir. }
  assert (Hbelow_w : isdir dask_workdir f = true ->
            forall q, under dask_workdir q = true -> q ≠ dask_workdir -> f' !! q = None).
  { intros Hdir q Hq Hqne. rewrite Hl2.
    assert (Hq1 : f1 !! q = None).
    { rewrite Hl1, Hdir. rewrite decide_False by done. by rewrite Hq. }
    destruct (isdir demo_output_path f1); [|done].
    destruct (decide (q = demo_output_path)) as [->|_]; [congruence|].
    by destruct (under demo_output_path q). }
  assert (Hbelow_d : isdir demo_output_path f = true ->
            forall q, under demo_output_path q = true -> q ≠ demo_output_path ->
                      f' !! q = None).
  { intros Hdir q Hq Hqne. rewrite Hl2, Hdir_d1, Hdir.
    rewrite decide_False by done. by rewrite Hq. }
  split; [|split; [exact Hbelow_w | split; [exact Hbelow_d|]]].
  - rewrite (clean_fixed dask_workdir f').
    + cbn. apply clean_fixed. rewrite Hdir_d'. intros Hdir. split.
      * rewrite Hl2, Hdir_d1, Hdir. by rewrite decide_True.
      * by apply Hbelow_d.
    + rewrite Hdir_w'. intros Hdir. split; [|by apply Hbelow_w].
      rewrite Hwork, Hl1, Hdir. by rewrite decide_True.
  - intros q Hq1 Hq2. rewrite Hl2.
    assert (Hq : f1 !! q = f !! q).
    { rewrite Hl1. destruct (isdir dask_workdir f); [|done].
      destruct (decide (q = dask_workdir)) as [->|_].
      - by rewrite under_refl in Hq1.
      - by rewrite Hq1. }
    destruct (isdir demo_output_path f1); [|done].
    destruct (decide (q = demo_output_path)) as [->|_].
    + by rewrite under_refl in Hq2.
    + by rewrite Hq2.
Qed.
End CleanProofs.

(** ** The hash shuffle of the first notebook *)

Section HashShuffleProofs.
Context {Row Key : Type}.
Variable on : Row -> Key.
Variable hash : Key -> nat.

Lemma filter_lt_succ (f : Row -> nat) (l : list Row) (n : nat) :
  filter (fun r => f r < n) l ++ filter (fun r => f r = n) l
  ≡ₚ filter (fun r => f r < S n) l.
Proof.
  induction l as [|x l IHl]; [done|].
  rewrite !filter_cons.
  destruct (decide (f x < n)), (decide (f x = n)); try lia.
  - rewrite decide_True by lia. cbn [app]. by rewrite IHl.
  - rewrite decide_True by lia. rewrite <- Permutation_middle. by rewrite IHl.
  - rewrite decide_False by lia. exact IHl.
Qed.

Lemma filter_range_app (f : Row -> nat) (l : list Row) (n : nat) :
  concat ((fun j => filter (fun r => f r = j) l) <$> seq 0 n)
  ≡ₚ filter (fun r => f r < n) l.
Proof.
  induction n as [|n IH].
  - cbn. clear. induction l as [|x l IHl]; [done|].
    rewrite filter_cons, decide_False by lia. exact IHl.
  - rewrite seq_S, fmap_app, concat_app, IH. cbn [fmap list_fmap concat Nat.add].
    rewrite app_nil_r. apply filter_lt_succ.
Qed.

(** X17.  [ddf.shuffle("id")]: whatever the hash, the output holds the
    rows of the input, each once, in as many partitions, and two rows with
    the same key are in the same partition. *)
Theorem ddf_shuffle_spec (ddf : list (list Row)) :
  concat (ddf_shuffle on hash ddf) ≡ₚ concat ddf
  /\ length (ddf_shuffle on hash ddf) = length ddf
  /\ (forall i j r1 r2 p1 p2,
        ddf_shuffle on hash ddf !! i = Some p1 ->
        ddf_shuffle on hash ddf !! j = Some p2 ->
        r1 ∈ p1 -> r2 ∈ p2 -> on r1 = on r2 -> i = j).
Proof.
  unfold ddf_shuffle. split; [|split].
  - rewrite (filter_range_app (fun r => hash (on r) mod length ddf)).
    destruct ddf as [|df rest]; [done|].
    induction (concat (df :: rest)) as [|x l IHl]; [done|].
    rewrite filter_cons, decide_True; [by rewrite IHl|].
    apply Nat.mod_upper_bound. cbn. lia.
  - by rewrite length_fmap, length_seq.
  - intros i j r1 r2 p1 p2 Hp1 Hp2 Hr1 Hr2 Hon.
    rewrite list_lookup_fmap in Hp1, Hp2.
    destruct (seq 0 (length ddf) !! i) as [i'|] eqn:Hi; [|done].
    destruct (seq 0 (length ddf) !! j) as [j'|] eqn:Hj; [|done].
    apply lookup_seq in Hi as [-> _]. apply lookup_seq in Hj as [-> _].
    cbn in Hp1, Hp2. injection Hp1 as <-. injection Hp2 as <-.
    apply list_elem_of_filter in Hr1 as [H1 _]. apply list_elem_of_filter in Hr2 as [H2 _].
    rewrite Hon in H1. lia.
Qed.
End HashShuffleProofs.


(** ** The properties above on the examples *)

Lemma value_in_cont_names : "value" ∈ cont_names.
Proof. unfold cont_names. by left. Qed.

Lemma id1000_in_cont_names : "id1000" ∈ cont_names.
Proof. unfold cont_names. right. by left. Qed.

Lemma Step2_fillna_completes_iff_witness :
  NoDup cont_names
  /\ (((exists out, Step2_fillna dask_estimate cont_names example_ddf = Ok out)
       <-> Forall (fun n => exists c, example_ddf !! n = Some c /\ present c ≠ [])
             cont_names)
      /\ (forall e, Step2_fillna dask_estimate cont_names example_ddf = Raise e ->
            (e = ValueError
             /\ exists n col, n ∈ cont_names /\ example_ddf !! n = Some col
                  /\ present col = [])
            \/ (exists n, e = KeyError n /\ n ∈ cont_names /\ example_ddf !! n = None))).
Proof.
  exact (conj cont_names_NoDup
           (Step2_fillna_completes_iff dask_estimate cont_names example_ddf
              cont_names_NoDup)).
Defined.

Lemma Step3_normalize_completes_iff_witness :
  NoDup cont_names
  /\ (((exists out, Step3_normalize cont_names example_ddf = Ok out)
       <-> Forall (fun n => is_Some (example_ddf !! n)) cont_names)
      /\ (forall e, Step3_normalize cont_names example_ddf = Raise e ->
            exists n, e = KeyError n /\ n ∈ cont_names /\ example_ddf !! n = None)).
Proof.
  exact (conj cont_names_NoDup
           (Step3_normalize_completes_iff cont_names example_ddf cont_names_NoDup)).
Defined.

Lemma Step2_fillna_frame_witness :
  (NoDup cont_names
   /\ Forall (fun n => exists c, example_ddf !! n = Some c /\ present c ≠ [])
        cont_names)
  /\ exists out,
       Step2_fillna dask_estimate cont_names example_ddf = Ok out
       /\ (forall n, n ∉ cont_names -> out !! n = example_ddf !! n)
       /\ (forall n, is_Some (out !! n) <-> is_Some (example_ddf !! n))
       /\ (forall n col, n ∈ cont_names -> example_ddf !! n = Some col ->
             exists col', out !! n = Some col'
               /\ Forall2 (fun c c' => length (values c') = length (values c))
                    (chunks col) (chunks col')).
Proof.
  exact (conj (conj cont_names_NoDup example_ddf_fillable)
           (Step2_fillna_frame dask_estimate cont_names example_ddf
              cont_names_NoDup example_ddf_fillable)).
Defined.

Lemma Step3_normalize_frame_witness :
  (NoDup cont_names /\ Forall (fun n => is_Some (example_ddf !! n)) cont_names)
  /\ exists out,
       Step3_normalize cont_names example_ddf = Ok out
       /\ (forall n, n ∉ cont_names -> out !! n = example_ddf !! n)
       /\ (forall n, is_Some (out !! n) <-> is_Some (example_ddf !! n))
       /\ (forall n col, n ∈ cont_names -> example_ddf !! n = Some col ->
             exists col', out !! n = Some col'
               /\ Forall2 (fun c c' => length (values c') = length (values c))
                    (chunks col) (chunks col')).
Proof.
  exact (conj (conj cont_names_NoDup example_ddf_columns)
           (Step3_normalize_frame cont_names example_ddf
              cont_names_NoDup example_ddf_columns)).
Defined.

Lemma Step2_fillna_no_missing_witness :
  (NoDup cont_names
   /\ Forall (fun n => exists c, example_ddf !! n = Some c /\ present c ≠ [])
        cont_names)
  /\ exists out,
       Step2_fillna dask_estimate cont_names example_ddf = Ok out
       /\ forall name, name ∈ cont_names ->
            exists col', out !! name = Some col'
              /\ Forall (fun c => Forall is_Some (values c)) (chunks col').
Proof.
  exact (conj (conj cont_names_NoDup example_ddf_fillable)
           (Step2_fillna_no_missing dask_estimate cont_names example_ddf
              cont_names_NoDup example_ddf_fillable)).
Defined.

Lemma Step2_fillna_idempotent_witness :
  (NoDup cont_names
   /\ Forall (fun n => exists c, example_ddf !! n = Some c /\ present c ≠ [])
        cont_names)
  /\ exists out,
       Step2_fillna dask_estimate cont_names example_ddf = Ok out
       /\ Step2_fillna dask_estimate cont_names out = Ok out.
Proof.
  exact (conj (conj cont_names_NoDup example_ddf_fillable)
           (Step2_fillna_idempotent dask_estimate cont_names example_ddf
              cont_names_NoDup example_ddf_fillable)).
Defined.

Lemma example_id1000_integral :
  Forall (fun c => Forall (fun x => forall a, x = Some a -> exists z, a = IZR z)
                     (values c)) (chunks example_id1000).
Proof.
  unfold example_id1000. cbn [chunks values].
  repeat (constructor; [repeat (constructor;
    [intros a Ha; first [discriminate Ha
                        | injection Ha as <-; first [by exists 1%Z | by exists 2%Z]]|]);
    constructor|]).
  constructor.
Qed.

Lemma Step2_fillna_keeps_integers_witness :
  (NoDup cont_names
   /\ Forall (fun n => exists c, example_ddf !! n = Some c /\ present c ≠ [])
        cont_names
   /\ "id1000" ∈ cont_names
   /\ example_ddf !! "id1000" = Some example_id1000
   /\ is_float (meta example_id1000) = false
   /\ Forall (fun c => Forall (fun x => forall a, x = Some a -> exists z, a = IZR z)
                         (values c)) (chunks example_id1000))
  /\ exists out col',
       Step2_fillna dask_estimate cont_names example_ddf = Ok out
       /\ out !! "id1000" = Some col'
       /\ Forall (fun c => Forall (fun x => exists z, x = Some (IZR z)) (values c))
            (chunks col').
Proof.
  exact (conj
           (conj cont_names_NoDup (conj example_ddf_fillable (conj id1000_in_cont_names
              (conj example_id1000_lookup (conj eq_refl example_id1000_integral)))))
           (Step2_fillna_keeps_integers dask_estimate cont_names example_ddf "id1000"
              example_id1000
              cont_names_NoDup example_ddf_fillable id1000_in_cont_names
              example_id1000_lookup eq_refl example_id1000_integral)).
Defined.

Lemma normalized_mean_and_std_witness :
  (NoDup cont_names
   /\ Forall (fun n => is_Some (example_ddf !! n)) cont_names
   /\ "value" ∈ cont_names
   /\ example_ddf !! "value" = Some example_value
   /\ mean example_value = Some 3%R
   /\ std example_value = Some 2%R)
  /\ exists out col',
       Step3_normalize cont_names example_ddf = Ok out
       /\ out !! "value" = Some col'
       /\ mean col' = Some 0%R
       /\ std col' = Some (2 / (2 + eps))%R.
Proof.
  exact (conj
           (conj cont_names_NoDup (conj example_ddf_columns (conj value_in_cont_names
              (conj example_value_lookup (conj example_value_mean example_value_std)))))
           (normalized_mean_and_std cont_names example_ddf "value" example_value 3 2
              cont_names_NoDup example_ddf_columns value_in_cont_names
              example_value_lookup example_value_mean example_value_std)).
Defined.

Lemma single_column_hyps (col : DaskSeries) :
  NoDup ["value"]
  /\ Forall (fun n => is_Some (({["value" := col]} : DaskDataFrame) !! n)) ["value"]
  /\ "value" ∈ ["value"]
  /\ ({["value" := col]} : DaskDataFrame) !! "value" = Some col.
Proof.
  split; [apply NoDup_singleton|]. split; [|split].
  - constructor; [|constructor]. rewrite lookup_singleton_eq. eauto.
  - by left.
  - apply lookup_singleton_eq.
Qed.

Lemma example_single_few : length (present example_single) <= 1.
Proof. cbn. lia. Qed.

Lemma normalize_too_few_values_witness :
  (NoDup ["value"]
   /\ Forall (fun n => is_Some (({["value" := example_single]} : DaskDataFrame) !! n))
        ["value"]
   /\ "value" ∈ ["value"]
   /\ ({["value" := example_single]} : DaskDataFrame) !! "value" = Some example_single
   /\ length (present example_single) <= 1)
  /\ exists out col',
       Step3_normalize ["value"] {["value" := example_single]} = Ok out
       /\ out !! "value" = Some col'
       /\ Forall (fun c => Forall (fun x => x = None) (values c)) (chunks col').
Proof.
  destruct (single_column_hyps example_single) as (H1 & H2 & H3 & H4).
  exact (conj (conj H1 (conj H2 (conj H3 (conj H4 example_single_few))))
           (normalize_too_few_values ["value"] {["value" := example_single]} "value"
              example_single H1 H2 H3 H4 example_single_few)).
Defined.

Lemma example_constant_values :
  Forall (fun c => Forall (fun x => x = None \/ x = Some 7%R) (values c))
    (chunks example_constant).
Proof.
  unfold example_constant. cbn [chunks values].
  repeat (constructor; [repeat (constructor; [first [by left | by right]|]); constructor|]).
  constructor.
Qed.

Lemma example_constant_count : 1 < length (present example_constant).
Proof. cbn. lia. Qed.

Lemma normalize_constant_column_witness :
  (NoDup ["value"]
   /\ Forall (fun n => is_Some (({["value" := example_constant]} : DaskDataFrame) !! n))
        ["value"]
   /\ "value" ∈ ["value"]
   /\ ({["value" := example_constant]} : DaskDataFrame) !! "value"
      = Some example_constant
   /\ Forall (fun c => Forall (fun x => x = None \/ x = Some 7%R) (values c))
        (chunks example_constant)
   /\ 1 < length (present example_constant))
  /\ exists out col',
       Step3_normalize ["value"] {["value" := example_constant]} = Ok out
       /\ out !! "value" = Some col'
       /\ mean example_constant = Some 7%R
       /\ std example_constant = Some 0%R
       /\ Forall2 (fun c c' =>
            values c' = (fun x => match x with
                                  | Some _ => Some 0%R
                                  | None => None
                                  end) <$> values c)
            (chunks example_constant) (chunks col').
Proof.
  destruct (single_column_hyps example_constant) as (H1 & H2 & H3 & H4).
  exact (conj
           (conj H1 (conj H2 (conj H3 (conj H4
              (conj example_constant_values example_constant_count)))))
           (normalize_constant_column ["value"] {["value" := example_constant]} "value"
              example_constant 7 H1 H2 H3 H4 example_constant_values
              example_constant_count)).
Defined.



Lemma example_rows_nonempty : concat example_rows ≠ [].
Proof. discriminate. Qed.

Lemma shuffled_divisions_witness :
  concat example_rows ≠ []
  /\ let gddf_read_shuffled :=
       (set_index (gddf_read_new example_rows) None example_state).1 in
     divisions gddf_read_shuffled !! 0 = Some 0
     /\ npartitions gddf_read_shuffled = length example_rows
     /\ exists d,
          last (divisions gddf_read_shuffled) = Some d
          /\ (exists df, df ∈ example_rows /\ length df = S d)
          /\ (forall df, df ∈ example_rows -> length df <= S d).
Proof.
  exact (conj example_rows_nonempty
           (shuffled_divisions example_rows example_state example_rows_nonempty)).
Defined.
